(** * Snuba logical query: a shallow embedding of [snuba/query/logical.py]

    The development follows the Python module class by class.  [Query] is a
    mutable object in the source; here every method takes the query and
    returns either a value (getters), a new query (setters) or a [result]
    when the method can raise.  The expression tree, the data source and
    the split / optimize routines are imported by the sources we have but
    are not part of them; they are modelled from the specification and
    marked as such. *)

From stdpp Require Import base option list gmap sets strings countable sorting.
From Stdlib Require Import ZArith Lia Ascii DecimalString.

Open Scope Z_scope.

#[local] Set Warnings "-register-all".

(** ** Python values that appear in the query *)

(** [OptionalScalarType] of the expression module: the value carried by a
    literal.  Floats and dates are carried by their textual form. *)
Inductive ScalarValue :=
| SNone
| SBool (b : bool)
| SStr (s : string)
| SInt (z : Z)
| SFloat (repr : string)
| SDateTime (iso : string).

#[global] Instance ScalarValue_eq_dec : EqDecision ScalarValue.
Proof. solve_decision. Defined.

#[global] Instance ScalarValue_countable : Countable ScalarValue.
Proof.
  refine (inj_countable'
    (λ v, match v with
          | SNone => inl (inl ())
          | SBool b => inl (inr b)
          | SStr s => inr (inl (0%nat, s))
          | SFloat s => inr (inl (1%nat, s))
          | SDateTime s => inr (inl (2%nat, s))
          | SInt z => inr (inr z)
          end)
    (λ c, match c with
          | inl (inl _) => SNone
          | inl (inr b) => SBool b
          | inr (inl (0%nat, s)) => SStr s
          | inr (inl (1%nat, s)) => SFloat s
          | inr (inl (_, s)) => SDateTime s
          | inr (inr z) => SInt z
          end) _).
  by intros [].
Qed.

(** Truthiness of an [Optional[str]]: [None] and the empty string are
    falsy, as in [if e.alias:] and [not e.table_name]. *)
Definition truthy (o : option string) : bool :=
  match o with
  | Some s => negb (String.eqb s "")
  | None => false
  end.

(** ** Expressions *)

(** Modelled from the spec: [snuba/query/expressions.py] is imported by
    [logical.py] but is not among the sources.  Section 3 of the
    specification gives the variants [Column{table?, name, alias?}],
    [Literal{value}], [FunctionCall{name, args, alias?}],
    [SubscriptReference{column, key, alias?}] and [Lambda]; field names
    follow the accesses made by [logical.py] ([alias], [table_name],
    [column_name]) and the constructor call [Column(None, None, name)] of
    the tests. *)
Inductive Expression :=
| Literal (alias : option string) (value : ScalarValue)
| Column (alias : option string) (table_name : option string)
         (column_name : string)
| SubscriptableReference (alias : option string) (column key : Expression)
| FunctionCall (alias : option string) (function_name : string)
               (parameters : list Expression)
| Lambda (alias : option string) (parameters : list string)
         (transformation : Expression).

(** The classes an expression can be tested against with [isinstance]. *)
Inductive ExpType :=
| TLiteral | TColumn | TSubscriptableReference | TFunctionCall | TLambda.

#[global] Instance ExpType_eq_dec : EqDecision ExpType.
Proof. solve_decision. Defined.

Definition type_of (e : Expression) : ExpType :=
  match e with
  | Literal _ _ => TLiteral
  | Column _ _ _ => TColumn
  | SubscriptableReference _ _ _ => TSubscriptableReference
  | FunctionCall _ _ _ => TFunctionCall
  | Lambda _ _ _ => TLambda
  end.

Definition isinstance (e : Expression) (t : ExpType) : bool :=
  bool_decide (type_of e = t).

Definition alias (e : Expression) : option string :=
  match e with
  | Literal a _ | Column a _ _ | SubscriptableReference a _ _
  | FunctionCall a _ _ | Lambda a _ _ => a
  end.

(** Induction over expressions that also covers the parameters of a
    function call. *)
Section Expression_ind.
Variable P : Expression → Prop.
Hypothesis Hlit : ∀ a v, P (Literal a v).
Hypothesis Hcol : ∀ a t c, P (Column a t c).
Hypothesis Hsub : ∀ a c k, P c → P k → P (SubscriptableReference a c k).
Hypothesis Hfun : ∀ a n ps, Forall P ps → P (FunctionCall a n ps).
Hypothesis Hlam : ∀ a ps t, P t → P (Lambda a ps t).

Fixpoint Expression_ind' (e : Expression) : P e :=
  match e with
  | Literal a v => Hlit a v
  | Column a t c => Hcol a t c
  | SubscriptableReference a c k =>
      Hsub a c k (Expression_ind' c) (Expression_ind' k)
  | FunctionCall a n ps =>
      Hfun a n ps
        ((fix go (l : list Expression) : Forall P l :=
            match l with
            | [] => Forall_nil_2 P
            | x :: l' => Forall_cons_2 P x l' (Expression_ind' x) (go l')
            end) ps)
  | Lambda a ps t => Hlam a ps t (Expression_ind' t)
  end.
End Expression_ind.

(** Expressions are frozen dataclasses: they compare and hash by
    structure, so they can be the elements of a Python [set].  The
    structure is exposed as a generic tree, from which equality and
    countability are inherited. *)
Definition leaf : Type :=
  option string + (string + (ScalarValue + list string)).

Fixpoint encode (e : Expression) : gen_tree leaf :=
  match e with
  | Literal a v =>
      GenNode 0 [GenLeaf (inl a); GenLeaf (inr (inr (inl v)))]
  | Column a t c =>
      GenNode 1 [GenLeaf (inl a); GenLeaf (inl t); GenLeaf (inr (inl c))]
  | SubscriptableReference a c k =>
      GenNode 2 [GenLeaf (inl a); encode c; encode k]
  | FunctionCall a n ps =>
      GenNode 3 (GenLeaf (inl a) :: GenLeaf (inr (inl n)) :: map encode ps)
  | Lambda a ps t =>
      GenNode 4 [GenLeaf (inl a); GenLeaf (inr (inr (inr ps))); encode t]
  end.

Fixpoint decode (t : gen_tree leaf) : Expression :=
  match t with
  | GenNode 0 [GenLeaf (inl a); GenLeaf (inr (inr (inl v)))] => Literal a v
  | GenNode 1 [GenLeaf (inl a); GenLeaf (inl t); GenLeaf (inr (inl c))] =>
      Column a t c
  | GenNode 2 [GenLeaf (inl a); c; k] =>
      SubscriptableReference a (decode c) (decode k)
  | GenNode 3 (GenLeaf (inl a) :: GenLeaf (inr (inl n)) :: ps) =>
      FunctionCall a n (map decode ps)
  | GenNode 4 [GenLeaf (inl a); GenLeaf (inr (inr (inr ps))); t] =>
      Lambda a ps (decode t)
  | _ => Literal None SNone
  end.

Definition decode_encode (e : Expression) : decode (encode e) = e.
Proof.
  induction e as [| |a c k IHc IHk|a n ps IH|a ps t IHt] using Expression_ind';
    simpl; try congruence.
  f_equal. rewrite map_map.
  induction IH as [|x l Hx _ IHl]; simpl; congruence.
Qed.

#[global] Instance Expression_eq_dec : EqDecision Expression.
Proof.
  intros x y.
  destruct (decide (encode x = encode y)) as [E|N].
  - left. rewrite <- (decode_encode x), <- (decode_encode y). by rewrite E.
  - right. intros ->. by apply N.
Defined.

#[global] Instance Expression_countable : Countable Expression :=
  inj_countable' encode decode decode_encode.

(** Modelled from the spec: [Expression.__iter__].  Section 4.1: the
    sequence "yields the node itself followed by the depth-first sequences
    of each child, in declared argument order". *)
Fixpoint iter (e : Expression) : list Expression :=
  e :: match e with
       | Literal _ _ | Column _ _ _ => []
       | SubscriptableReference _ c k => iter c ++ iter k
       | FunctionCall _ _ ps => flat_map iter ps
       | Lambda _ _ t => iter t
       end.

(** Modelled from the spec: [Expression.transform].  Section 4.1:
    "children are transformed first, a new node is built from the
    transformed children, then [f] is applied to that new node". *)
Fixpoint transform (func : Expression → Expression) (e : Expression)
  : Expression :=
  func match e with
       | Literal _ _ | Column _ _ _ => e
       | SubscriptableReference a c k =>
           SubscriptableReference a (transform func c) (transform func k)
       | FunctionCall a n ps => FunctionCall a n (map (transform func) ps)
       | Lambda a ps t => Lambda a ps (transform func t)
       end.

(** Modelled from the spec: [ExpressionVisitor] and [Expression.accept].
    Section 4.1: [accept] "dispatches on the node's variant to the matching
    visitor method". *)
Record ExpressionVisitor (T : Type) := {
  visit_literal : option string → ScalarValue → T;
  visit_column : option string → option string → string → T;
  visit_subscriptable_reference :
    option string → Expression → Expression → T;
  visit_function_call : option string → string → list Expression → T;
  visit_lambda : option string → list string → Expression → T }.
Arguments visit_literal {T}.
Arguments visit_column {T}.
Arguments visit_subscriptable_reference {T}.
Arguments visit_function_call {T}.
Arguments visit_lambda {T}.

Definition accept {T} (visitor : ExpressionVisitor T) (e : Expression) : T :=
  match e with
  | Literal a v => visit_literal visitor a v
  | Column a t c => visit_column visitor a t c
  | SubscriptableReference a c k =>
      visit_subscriptable_reference visitor a c k
  | FunctionCall a n ps => visit_function_call visitor a n ps
  | Lambda a ps t => visit_lambda visitor a ps t
  end.

(** ** Exceptions *)

(** The only exception raised by [logical.py] itself is the
    [AssertionError] of an [assert], with or without a message. *)
Inductive Exception :=
| AssertionError (msg : option string).

Inductive result (A : Type) :=
| Ok (a : A)
| Raise (exc : Exception).
Arguments Ok {A}.
Arguments Raise {A}.

Definition bind {A B} (r : result A) (k : A → result B) : result B :=
  match r with
  | Ok a => k a
  | Raise exc => Raise exc
  end.

Notation "x ←! r ; k" := (bind r (λ x, k))
  (at level 100, r at next level, k at level 200, right associativity).

(** The specification names the two failures of the query object
    [UnboundDataSource] and [InvariantViolation].  In the source they are
    the assertion of [get_data_source], which carries a message, and the
    bare assertions of [set_entity] and [get_entity]. *)
Definition UnboundDataSource : Exception :=
  AssertionError (Some "Data source has not been provided yet.").

Definition InvariantViolation : Exception := AssertionError None.

(** ** Collaborators of the query *)

(** Modelled from the spec: [RelationalSource] ([snuba/datasets/schemas])
    is not among the sources.  Section 6: the data source "exposes
    [get_columns()]", the declared columns; [validate_aliases] reads the
    [flattened] name of each. *)
Record FlattenedColumn := { flattened : string }.

Record RelationalSource := { get_columns : list FlattenedColumn }.

(** Modelled from the spec: [Entity] ([snuba/query/data_source/simple])
    is not among the sources; the query only stores and returns it. *)
Record Entity := { key : string }.

(** The legacy body is a [MutableMapping[str, Any]] holding the parsed
    JSON of the request. *)
Inductive Any :=
| AScalar (v : ScalarValue)
| AList (items : list Any)
| ADict (items : list (string * Any)).

Inductive OrderByDirection := ASC | DESC.

Record OrderBy := {
  direction : OrderByDirection;
  ob_expression : Expression }.

Record SelectedExpression := {
  name : option string;
  expression : Expression }.

Definition Limitby : Type := Z * string.

(** A Python [float], by its IEEE-754 binary64 bit pattern. *)
Record float := { bits : Z }.

(** ** The query object *)

(** The private attributes of [Query], in the order [__init__] assigns
    them. *)
Record Query := {
  body : gmap string Any;
  final : bool;
  data_source : option RelationalSource;
  selected_columns : list SelectedExpression;
  array_join : option Expression;
  condition : option Expression;
  prewhere : option Expression;
  groupby : list Expression;
  having : option Expression;
  order_by : list OrderBy;
  entity : option Entity;
  limitby : option Limitby;
  sample : option float;
  limit : option Z;
  offset : Z;
  totals : bool;
  granularity : option Z }.

(** [Query.__init__]: absent sequences default to the empty list, [final]
    starts false. *)
Definition Query_init
    (body : gmap string Any)
    (data_source : option RelationalSource)
    (selected_columns : option (list SelectedExpression))
    (array_join condition prewhere : option Expression)
    (groupby : option (list Expression))
    (having : option Expression)
    (order_by : option (list OrderBy))
    (entity : option Entity)
    (limitby : option Limitby)
    (sample : option float)
    (limit : option Z)
    (offset : Z)
    (totals : bool)
    (granularity : option Z) : Query :=
  {| body := body;
     final := false;
     data_source := data_source;
     selected_columns := default [] selected_columns;
     array_join := array_join;
     condition := condition;
     prewhere := prewhere;
     groupby := default [] groupby;
     having := having;
     order_by := default [] order_by;
     entity := entity;
     limitby := limitby;
     sample := sample;
     limit := limit;
     offset := offset;
     totals := totals;
     granularity := granularity |}.

(** [x or []] for an optional expression used as an iterable: an
    expression object is always truthy, so it is iterated unless it is
    [None]. *)
Definition iter_or_empty (o : option Expression) : list Expression :=
  match o with
  | Some e => iter e
  | None => []
  end.

(** [Query.get_all_expressions]: the [chain] of the six clauses. *)
Definition get_all_expressions (q : Query) : list Expression :=
  concat (map iter (map expression (selected_columns q)))
  ++ iter_or_empty (array_join q)
  ++ iter_or_empty (condition q)
  ++ concat (map iter (groupby q))
  ++ iter_or_empty (having q)
  ++ concat (map iter (map ob_expression (order_by q))).

(** Functional updates standing for the assignments to [self.__field]. *)
Definition with_expressions
    (sel : list SelectedExpression) (aj cond : option Expression)
    (gb : list Expression) (hv : option Expression) (ob : list OrderBy)
    (pw : option Expression) (q : Query) : Query :=
  {| body := body q; final := final q; data_source := data_source q;
     selected_columns := sel; array_join := aj; condition := cond;
     prewhere := pw; groupby := gb; having := hv; order_by := ob;
     entity := entity q; limitby := limitby q; sample := sample q;
     limit := limit q; offset := offset q; totals := totals q;
     granularity := granularity q |}.

Definition replace_selected (s : SelectedExpression) (e : Expression)
  : SelectedExpression :=
  {| name := name s; expression := e |}.

Definition replace_orderby (o : OrderBy) (e : Expression) : OrderBy :=
  {| direction := direction o; ob_expression := e |}.

(** [Query.transform_expressions]: the six assignments of the method, in
    source order; [prewhere] is not among them. *)
Definition transform_expressions
    (func : Expression → Expression) (q : Query) : Query :=
  let transform_expression_list (expressions : list Expression) :=
    map (λ exp, transform func exp) expressions in
  let selected_columns' :=
    map (λ selected,
           replace_selected selected (transform func (expression selected)))
        (selected_columns q) in
  let array_join' :=
    match array_join q with
    | Some e => Some (transform func e)
    | None => None
    end in
  let condition' :=
    match condition q with
    | Some e => Some (transform func e)
    | None => None
    end in
  let groupby' := transform_expression_list (groupby q) in
  let having' :=
    match having q with
    | Some e => Some (transform func e)
    | None => None
    end in
  let order_by' :=
    map (λ clause,
           replace_orderby clause (transform func (ob_expression clause)))
        (order_by q) in
  with_expressions selected_columns' array_join' condition' groupby'
                   having' order_by' (prewhere q) q.

(** [Query.transform]: the visitor-based sibling of
    [transform_expressions]; it does rewrite [prewhere]. *)
Definition transform_visitor
    (visitor : ExpressionVisitor Expression) (q : Query) : Query :=
  let selected_columns' :=
    map (λ selected,
           replace_selected selected (accept visitor (expression selected)))
        (selected_columns q) in
  let array_join' := accept visitor <$> array_join q in
  let condition' := accept visitor <$> condition q in
  let prewhere' := accept visitor <$> prewhere q in
  let groupby' := map (accept visitor) (groupby q) in
  let having' := accept visitor <$> having q in
  let order_by' :=
    map (λ clause,
           replace_orderby clause (accept visitor (ob_expression clause)))
        (order_by q) in
  with_expressions selected_columns' array_join' condition' groupby'
                   having' order_by' prewhere' q.

(** [Query.get_data_source]. *)
Definition get_data_source (q : Query) : result RelationalSource :=
  match data_source q with
  | Some ds => Ok ds
  | None => Raise UnboundDataSource
  end.

(** [Query.set_data_source]. *)
Definition set_data_source (ds : RelationalSource) (q : Query) : Query :=
  {| body := body q; final := final q; data_source := Some ds;
     selected_columns := selected_columns q; array_join := array_join q;
     condition := condition q; prewhere := prewhere q;
     groupby := groupby q; having := having q; order_by := order_by q;
     entity := entity q; limitby := limitby q; sample := sample q;
     limit := limit q; offset := offset q; totals := totals q;
     granularity := granularity q |}.

(** [Query.set_entity]: asserts that no entity is bound yet. *)
Definition set_entity (e : Entity) (q : Query) : result Query :=
  match entity q with
  | None =>
      Ok {| body := body q; final := final q; data_source := data_source q;
            selected_columns := selected_columns q;
            array_join := array_join q; condition := condition q;
            prewhere := prewhere q; groupby := groupby q;
            having := having q; order_by := order_by q;
            entity := Some e; limitby := limitby q; sample := sample q;
            limit := limit q; offset := offset q; totals := totals q;
            granularity := granularity q |}
  | Some _ => Raise InvariantViolation
  end.

(** [Query.get_entity]: asserts that an entity is bound. *)
Definition get_entity (q : Query) : result Entity :=
  match entity q with
  | Some e => Ok e
  | None => Raise InvariantViolation
  end.

(** [Query.__get_all_ast_referenced_expressions]: the union, over the
    given expressions, of the sub-expressions of the requested class. *)
Definition get_all_ast_referenced_expressions
    (expressions : list Expression) (exp_type : ExpType)
  : gset Expression :=
  foldl (λ ret expression,
           ret ∪ list_to_set
                   (filter (λ c, isinstance c exp_type = true)
                           (iter expression)))
        ∅ expressions.

Definition get_all_ast_referenced_columns (q : Query) : gset Expression :=
  get_all_ast_referenced_expressions (get_all_expressions q) TColumn.

Definition get_all_ast_referenced_subscripts (q : Query) : gset Expression :=
  get_all_ast_referenced_expressions (get_all_expressions q)
                                     TSubscriptableReference.

Definition get_columns_referenced_in_conditions_ast (q : Query)
  : gset Expression :=
  get_all_ast_referenced_expressions
    (match condition q with Some c => [c] | None => [] end) TColumn.

(** The text of an [Optional[str]] known to be truthy. *)
Definition str_of (o : option string) : string := default "" o.

(** [qualified_col_name] of [validate_aliases]. *)
Definition qualified_col_name (table_name : option string)
    (column_name : string) : string :=
  if negb (truthy table_name) then column_name
  else str_of table_name +:+ "." +:+ column_name.

(** One iteration of the loop of [validate_aliases] over the pair
    [(declared_symbols, referenced_symbols)]. *)
Definition validate_aliases_step
    (st : gset string * gset string) (e : Expression)
  : gset string * gset string :=
  let '(declared_symbols, referenced_symbols) := st in
  if truthy (alias e) then
    match e with
    | Column a t c =>
        let q := qualified_col_name t c in
        let referenced_symbols := referenced_symbols ∪ {[q]} in
        if negb (String.eqb (str_of a) q)
        then (declared_symbols ∪ {[str_of a]}, referenced_symbols)
        else (declared_symbols, referenced_symbols)
    | _ => (declared_symbols ∪ {[str_of (alias e)]}, referenced_symbols)
    end
  else
    match e with
    | Column a t c =>
        if negb (truthy a) && negb (truthy t)
        then (declared_symbols, referenced_symbols ∪ {[c]})
        else (declared_symbols, referenced_symbols)
    | _ => (declared_symbols, referenced_symbols)
    end.

(** [Query.validate_aliases]. *)
Definition validate_aliases (q : Query) : result bool :=
  let '(declared_symbols, referenced_symbols) :=
    foldl validate_aliases_step (∅, ∅) (get_all_expressions q) in
  ds ←! get_data_source q;
  let declared_symbols :=
    declared_symbols ∪ list_to_set (map flattened (get_columns ds)) in
  Ok (bool_decide (referenced_symbols ∖ declared_symbols = ∅)).

(** [Query.add_condition_to_ast]; [binary_condition] builds the function
    call [BooleanFunctions.AND] over the two operands. *)
Definition AND : string := "and".

Definition binary_condition (alias : option string) (function_name : string)
    (lhs rhs : Expression) : Expression :=
  FunctionCall alias function_name [lhs; rhs].

Definition set_ast_condition (c : option Expression) (q : Query) : Query :=
  with_expressions (selected_columns q) (array_join q) c (groupby q)
                   (having q) (order_by q) (prewhere q) q.

Definition set_ast_selected_columns (sel : list SelectedExpression)
    (q : Query) : Query :=
  with_expressions sel (array_join q) (condition q) (groupby q)
                   (having q) (order_by q) (prewhere q) q.

Definition add_condition_to_ast (c : Expression) (q : Query) : Query :=
  match condition q with
  | None => set_ast_condition (Some c) q
  | Some old => set_ast_condition (Some (binary_condition None AND c old)) q
  end.

(** ** Split strategies *)

(** Modelled from the spec: [snuba/web/split.py] is not among the sources;
    only its tests are.  Sections 3 and 4.3: a strategy receives a query
    and a runner callback and either handles the execution or declines;
    a result set is a sequence of rows (its metadata, for which the
    specification gives no merging rule, is left out); the runner may fail
    with a retryable [TransportError] or a fatal [EngineError]. *)
Definition Row : Type := gmap string ScalarValue.

Definition ResultSet : Type := list Row.

Inductive RunnerError := TransportError | EngineError.

Inductive Outcome :=
| Declined
| Succeeded (r : ResultSet)
| FailedRetryable
| Propagated (err : RunnerError).



(** A half-open time window [[lower, upper)], in seconds. *)
Definition Window : Type := Z * Z.

Definition in_window (t : Z) (w : Window) : Prop := w.1 ≤ t < w.2.

(** Modelled from the spec: [TimeSplitQueryStrategy.execute] (section
    4.5), of [snuba/web/split.py], which is not among the sources.  The
    time condition of the query is represented by the interval it
    denotes; cloning the query with a replaced time range and running it
    is the call of [runner] on the window.  The loop keeps a shrinking
    [upper_boundary] and a [step] multiplied by [growth] after each
    window; each window is
    [[max(lower, upper_boundary - step), upper_boundary)].  It stops
    when the accumulated rows reach [limit] or the boundary reaches
    [lower].  The specification words the growth as a doubling, while
    the windows that [test_time_split_ast] expects are one, ten and
    fifteen hours wide; the factor is therefore an argument, and the
    properties below say which factor gives the windows of the test.
    The second component of the result is the list of windows issued, in
    order.  The result is [None] when the rounds allotted are used up
    before the loop stops: the loop of the specification has no bound on
    its rounds, and does not end when the boundary stops advancing. *)
Fixpoint time_split_loop (fuel : nat) (growth : Z) (limit : option nat)
    (runner : Window → RunnerError + ResultSet)
    (lower upper_boundary step : Z) (acc : ResultSet)
  : option (Outcome * list Window) :=
  match fuel with
  | O => None
  | S fuel' =>
      if bool_decide (upper_boundary ≤ lower) then Some (Succeeded acc, [])
      else
        let window := (Z.max lower (upper_boundary - step), upper_boundary) in
        match runner window with
        | inl TransportError => Some (FailedRetryable, [window])
        | inl EngineError => Some (Propagated EngineError, [window])
        | inr rows =>
            let acc' := acc ++ rows in
            if match limit with
               | Some n => bool_decide (n ≤ length acc')%nat
               | None => false
               end
            then Some (Succeeded acc', [window])
            else
              match time_split_loop fuel' growth limit runner lower
                                    window.1 (growth * step) acc' with
              | Some (o, ws) => Some (o, window :: ws)
              | None => None
              end
        end
  end.

(** The strategy declines unless the time range is a well-formed
    interval.  With a positive step every window is at least one second
    wide, so one round more than the width of the interval in seconds is
    enough for the loop to stop by itself. *)
Definition time_split_execute (initial_step growth : Z) (limit : option nat)
    (time_range : option (Z * Z))
    (runner : Window → RunnerError + ResultSet)
  : option (Outcome * list Window) :=
  match time_range with
  | Some (lower, upper) =>
      if bool_decide (lower < upper) then
        time_split_loop (S (Z.to_nat (upper - lower))) growth limit runner
                        lower upper initial_step []
      else Some (Declined, [])
  | None => Some (Declined, [])
  end.

(** The windows are consecutive: each starts where the next one ends,
    the first ends at [upper] and the last starts at [lower]; none is
    empty. *)
Inductive chained (lower : Z) : Z → list Window → Prop :=
| chained_nil : chained lower lower []
| chained_cons lo upper ws :
    lo < upper → chained lower lo ws → chained lower upper ((lo, upper) :: ws).

(** Modelled from the spec: the names under which the condition module
    ([snuba/query/conditions.py], not among the sources) represents [=]
    and [IN]. *)
Definition EQ : string := "equals".
Definition IN : string := "in".

(** The top-level conditions of a condition expression: the operands of
    its outer conjunctions. *)
Fixpoint get_first_level_and_conditions (e : Expression) : list Expression :=
  match e with
  | FunctionCall _ n [lhs; rhs] =>
      if String.eqb n AND
      then get_first_level_and_conditions lhs
           ++ get_first_level_and_conditions rhs
      else [e]
  | _ => [e]
  end.

(** The expression is the column [col], under any alias or table. *)
Definition is_column (col : string) (e : Expression) : bool :=
  match e with
  | Column _ _ c => String.eqb c col
  | _ => false
  end.

(** A direct comparison against column [col]: an equality with the
    column as either operand, or the membership of the column in
    something. *)
Definition is_eq_or_in_on (col : string) (c : Expression) : bool :=
  match c with
  | FunctionCall _ n [lhs; rhs] =>
      (String.eqb n EQ && (is_column col lhs || is_column col rhs))
      || (String.eqb n IN && is_column col lhs)
  | _ => false
  end.

Record ColumnSplitQueryStrategy := {
  id_column : string;
  project_column : string;
  timestamp_column : string }.

(** The column [col] is selected by exact name, unaliased. *)
Definition selects (q : Query) (col : string) : bool :=
  existsb (λ s, match expression s with
                | Column a _ c => negb (truthy a) && String.eqb c col
                | _ => false
                end)
          (selected_columns q).

Definition bare_column (col : string) : SelectedExpression :=
  {| name := Some col; expression := Column None None col |}.

(** The four applicability preconditions of section 4.4. *)
Definition column_split_applicable (min_cols : nat)
    (s : ColumnSplitQueryStrategy) (q : Query) : bool :=
  bool_decide (min_cols < length (selected_columns q))%nat
  && (selects q (id_column s) && selects q (project_column s))
  && negb (existsb (is_eq_or_in_on (id_column s))
             (match condition q with
              | Some c => get_first_level_and_conditions c
              | None => []
              end))
  && bool_decide (groupby q = []).

(** The narrow first query: identifier, project scope and time column,
    plus what [ORDER BY] and [LIMIT BY] mention. *)
Definition minimal_query (s : ColumnSplitQueryStrategy) (q : Query) : Query :=
  set_ast_selected_columns
    ([bare_column (id_column s); bare_column (project_column s);
      bare_column (timestamp_column s)]
     ++ map (λ o, {| name := None; expression := ob_expression o |})
            (order_by q)
     ++ match limitby q with
        | Some (_, col) => [bare_column col]
        | None => []
        end)
    q.

(** The filter of the second query: the pair (identifier, project scope)
    is restricted to the pairs returned by the first query. *)
Definition id_filter (s : ColumnSplitQueryStrategy) (rows : ResultSet)
  : Expression :=
  let cell (row : Row) (col : string) :=
    Literal None (default SNone (row !! col)) in
  FunctionCall None IN
    [FunctionCall None "tuple"
       [Column None None (id_column s); Column None None (project_column s)];
     FunctionCall None "tuple"
       (map (λ row, FunctionCall None "tuple"
                      [cell row (id_column s); cell row (project_column s)])
            rows)].

Definition outcome_of_error (err : RunnerError) : Outcome :=
  match err with
  | TransportError => FailedRetryable
  | EngineError => Propagated EngineError
  end.

(** Modelled from the spec: [ColumnSplitQueryStrategy.execute] (section
    4.4).  The second component is the list of sub-queries issued. *)
Definition column_split_execute (min_cols : nat)
    (s : ColumnSplitQueryStrategy) (q : Query)
    (runner : Query → RunnerError + ResultSet) : Outcome * list Query :=
  if column_split_applicable min_cols s q then
    let first := minimal_query s q in
    match runner first with
    | inl err => (outcome_of_error err, [first])
    | inr [] => (Succeeded [], [first])
    | inr rows =>
        let second := add_condition_to_ast (id_filter s rows) q in
        match runner second with
        | inl err => (outcome_of_error err, [first; second])
        | inr result => (Succeeded result, [first; second])
        end
    end
  else (Declined, []).

(** ** Subdividing the parts to optimize *)

(** [str.split(",")]. *)
Fixpoint split_comma (s : string) : list string :=
  match s with
  | EmptyString => [EmptyString]
  | String c s' =>
      if Ascii.eqb c ","%char
      then EmptyString :: split_comma s'
      else match split_comma s' with
           | h :: t => String c h :: t
           | [] => [String c EmptyString]
           end
  end.

(** The number written by a string of decimal digits. *)
Definition digit_of (c : ascii) : option N :=
  let n := N_of_ascii c in
  if ((48 <=? n) && (n <=? 57))%N then Some (n - 48)%N else None.

Fixpoint parse_digits (acc : N) (s : string) : option N :=
  match s with
  | EmptyString => Some acc
  | String c s' =>
      match digit_of c with
      | Some d => parse_digits (10 * acc + d)%N s'
      | None => None
      end
  end.

Definition parse_number (s : string) : option N :=
  match s with
  | EmptyString => None
  | _ => parse_digits 0%N s
  end.

(** The leading numeric key of a part named ["(key,'date')"]: the text
    between the opening parenthesis and the first comma. *)
Definition leading_key (part : string) : string :=
  match split_comma part with
  | String _ k :: _ => k
  | _ => EmptyString
  end.

(** The composite key of a part: its date component, the text after the
    first comma, and its leading numeric key.  A name of another shape
    has none. *)
Definition part_key (part : string) : option (string * N) :=
  match split_comma part with
  | _ :: date :: _ =>
      match parse_number (leading_key part) with
      | Some n => Some (date, n)
      | None => None
      end
  | _ => None
  end.

(** The order of the keys: the more recent date first and, for one date,
    the larger leading key first. *)
Definition key_before (k1 k2 : string * N) : bool :=
  match String.compare k1.1 k2.1 with
  | Gt => true
  | Lt => false
  | Eq => (k2.2 <=? k1.2)%N
  end.

Definition part_before (p1 p2 : string) : bool :=
  match part_key p1, part_key p2 with
  | Some k1, Some k2 => key_before k1 k2
  | _, _ => true
  end.

(** Insertion into a sorted list: [x] goes before the first part it is
    not after. *)
Fixpoint insert_desc (x : string) (l : list string) : list string :=
  match l with
  | [] => [x]
  | y :: l' => if part_before x y then x :: l else y :: insert_desc x l'
  end.

Definition sorted_desc (parts : list string) : list string :=
  foldr insert_desc [] parts.

(** [l[i::n]] for [n > 0]: the elements at positions [i], [i + n], ... *)
Fixpoint every_nth (skip n : nat) (l : list string) : list string :=
  match l with
  | [] => []
  | x :: l' =>
      match skip with
      | O => x :: every_nth (n - 1) n l'
      | S k => every_nth k n l'
      end
  end.

(** Modelled from the spec: [_subdivide_parts] of [snuba/optimize.py],
    which is not among the sources; only its test is.  Section 9: "sort
    deterministically by a composite key, then assign round-robin by
    bucket index in sorted order", to be checked against the literal
    scenarios.  The composite key of a part is made of its two
    components, the date and the leading numeric key; the scenarios of
    [tests/test_optimize.py] give the direction, most recent and largest
    first.  Bucket [i] of [n] takes the sorted parts at positions [i],
    [i + n], and so on.  Section 8 also words the split as one "that
    groups by leading numeric key"; the six-part scenario of the test,
    whose first bucket holds a [(90,...)] and a [(30,...)] part, rules
    that reading out, so the rule of section 9 is the one modelled.  The
    result is [None] when a part has no key. *)
Definition _subdivide_parts (parts : list string)
    (number_of_subdivisions : nat) : option (list (list string)) :=
  if forallb (λ p, bool_decide (is_Some (part_key p))) parts then
    let sorted_parts := sorted_desc parts in
    Some (map (λ i, every_nth i number_of_subdivisions sorted_parts)
              (seq 0 number_of_subdivisions))
  else None.


(** The scenarios of [test_subdivide_parts] with three and with six
    parts, and what the test expects of them. *)
Definition three_parts : list string :=
  ["(90,'2022-03-28')"; "(90,'2022-03-21')"; "(30,'2022-03-28')"].

Definition six_parts : list string :=
  ["(90,'2022-03-28')"; "(90,'2022-03-21')"; "(30,'2022-03-28')";
   "(30,'2022-03-21')"; "(90,'2022-03-14')"; "(90,'2022-03-07')"].

Definition six_parts_expected : list (list string) :=
  [["(90,'2022-03-28')"; "(30,'2022-03-21')"];
   ["(30,'2022-03-28')"; "(90,'2022-03-14')"];
   ["(90,'2022-03-21')"; "(90,'2022-03-07')"]].

(** ** Alias resolution as the specification words it *)

(** An expression references a symbol: a bare column without alias
    references its name, an aliased column references its qualified
    name. *)
Inductive references : Expression → string → Prop :=
| references_bare a t c :
    truthy a = false → truthy t = false → references (Column a t c) c
| references_aliased a t c :
    truthy a = true → references (Column a t c) (qualified_col_name t c).

(** An expression declares a symbol: its alias, unless it is a column
    aliased to its own qualified name. *)
Inductive declares : Expression → string → Prop :=
| declares_column a t c :
    truthy a = true → str_of a ≠ qualified_col_name t c →
    declares (Column a t c) (str_of a)
| declares_other e :
    truthy (alias e) = true → type_of e ≠ TColumn →
    declares e (str_of (alias e)).

(** The clauses of a query that hold expressions, as the data model
    lists them (section 3): the select list, array join, condition,
    prewhere, group by, having and order by. *)
Definition clause_expressions (q : Query) : list Expression :=
  map expression (selected_columns q)
  ++ option_list (array_join q)
  ++ option_list (condition q)
  ++ option_list (prewhere q)
  ++ groupby q
  ++ option_list (having q)
  ++ map ob_expression (order_by q).

(** [e] occurs in the query: it is a sub-expression of one of its
    clauses. *)
Definition occurs_in (q : Query) (e : Expression) : Prop :=
  ∃ clause, clause ∈ clause_expressions q ∧ e ∈ iter clause.

(** The symbols referenced by the query, and those declared by the query
    or by the data source. *)
Definition referenced_symbols (q : Query) (s : string) : Prop :=
  ∃ e, occurs_in q e ∧ references e s.

Definition declared_symbols (q : Query) (ds : RelationalSource)
    (s : string) : Prop :=
  (∃ e, occurs_in q e ∧ declares e s)
  ∨ s ∈ map flattened (get_columns ds).

(** The root expressions of a query, in traversal order. *)
Definition roots (q : Query) : list Expression :=
  map expression (selected_columns q)
  ++ option_list (array_join q)
  ++ option_list (condition q)
  ++ groupby q
  ++ option_list (having q)
  ++ map ob_expression (order_by q).

(** Number of times [e] is yielded by a sequence. *)
Definition occurrences (e : Expression) (l : list Expression) : nat :=
  length (filter (λ x, x = e) l).

(** ** Top-level conditions as the specification words them *)

(** [c] is one of the top-level conditions of [e]: [e] itself when it is
    not a conjunction, otherwise a top-level condition of an operand. *)
Inductive top_level_condition (c : Expression) : Expression → Prop :=
| top_level_here :
    (∀ a lhs rhs, c ≠ FunctionCall a AND [lhs; rhs]) →
    top_level_condition c c
| top_level_left a lhs rhs :
    top_level_condition c lhs →
    top_level_condition c (FunctionCall a AND [lhs; rhs])
| top_level_right a lhs rhs :
    top_level_condition c rhs →
    top_level_condition c (FunctionCall a AND [lhs; rhs]).

(** [c] compares column [col] directly with [=], on either side, or
    tests its membership with [IN]. *)
Inductive eq_or_in_comparison (col : string) : Expression → Prop :=
| equality_left a al t other :
    eq_or_in_comparison col (FunctionCall a EQ [Column al t col; other])
| equality_right a al t other :
    eq_or_in_comparison col (FunctionCall a EQ [other; Column al t col])
| membership a al t other :
    eq_or_in_comparison col (FunctionCall a IN [Column al t col; other]).

(** The filter the specification gives the second sub-query: the pair
    (identifier, project scope) is among the pairs of values of the
    rows. *)
Definition in_returned_pairs (id project : string) (rows : ResultSet)
  : Expression :=
  FunctionCall None IN
    [FunctionCall None "tuple"
       [Column None None id; Column None None project];
     FunctionCall None "tuple"
       (map (λ row : Row,
               FunctionCall None "tuple"
                 [Literal None (default SNone (row !! id));
                  Literal None (default SNone (row !! project))])
            rows)].

(** The clauses and settings of a query other than its select list and
    its condition. *)
Definition besides_select_and_condition (q : Query) :=
  (array_join q, prewhere q, groupby q, having q, order_by q, limitby q,
   sample q, limit q, offset q, totals q, granularity q, final q,
   data_source q, entity q).

(** ** Scenarios *)

(** A query whose select list and condition share the column [x]. *)
Definition shared_column_query : Query :=
  Query_init ∅ None
    (Some [{| name := Some "x"; expression := Column None None "x" |}])
    None
    (Some (FunctionCall None "greater"
             [Column None None "x"; Literal None (SInt 1)]))
    None None None None None None None None 0 false None.


(** A query with a [prewhere] clause, and a renaming of column [a]. *)
Definition prewhere_query : Query :=
  Query_init ∅ None
    (Some [{| name := Some "a"; expression := Column None None "a" |}])
    None
    (Some (Column None None "a"))
    (Some (Column None None "a"))
    None None None None None None None 0 false None.

Definition rename_a (e : Expression) : Expression :=
  match e with
  | Column al t c => if String.eqb c "a" then Column al t "b" else e
  | _ => e
  end.

Definition rename_a_visitor : ExpressionVisitor Expression :=
  {| visit_literal := Literal;
     visit_column := λ al t c, rename_a (Column al t c);
     visit_subscriptable_reference := SubscriptableReference;
     visit_function_call := FunctionCall;
     visit_lambda := Lambda |}.


(** The queries of [column_split_tests] ([tests/test_split.py]). *)
Definition events_splitter : ColumnSplitQueryStrategy :=
  {| id_column := "event_id";
     project_column := "project_id";
     timestamp_column := "timestamp" |}.

Definition comparison (op col : string) (rhs : Expression) : Expression :=
  FunctionCall None op [Column None None col; rhs].

Definition conjunction (cs : list Expression) : option Expression :=
  match cs with
  | [] => None
  | c :: cs' => Some (foldl (λ acc c', binary_condition None AND acc c') c cs')
  end.

Definition base_conditions : list Expression :=
  [comparison "greaterOrEquals" "timestamp"
     (Literal None (SDateTime "2019-09-19T10:00:00"));
   comparison "less" "timestamp"
     (Literal None (SDateTime "2019-09-19T12:00:00"));
   comparison IN "project_id"
     (FunctionCall None "tuple"
        [Literal None (SInt 1); Literal None (SInt 2); Literal None (SInt 3)])].

Definition a32 : string := "aaaaaaaaaaaaaaaaaaaaaaaaaaaaaaaa".
Definition b32 : string := "bbbbbbbbbbbbbbbbbbbbbbbbbbbbbbbb".

Definition split_test_query (columns : list string)
    (conditions : list Expression) (groupby : list string) : Query :=
  Query_init ∅ None
    (Some (map bare_column columns))
    None
    (conjunction conditions)
    None
    (Some (map (Column None None) groupby))
    None None None None None (Some 10) 0 false None.

Definition seven_columns : list string :=
  ["event_id"; "level"; "logger"; "server_name"; "transaction";
   "timestamp"; "project_id"].

Definition query_with_groupby : Query :=
  split_test_query seven_columns base_conditions ["timestamp"].

Definition query_valid : Query :=
  split_test_query seven_columns base_conditions [].

Definition query_few_columns : Query :=
  split_test_query ["event_id"; "level"; "logger"; "server_name"]
                   base_conditions [].

Definition query_eq_event_id : Query :=
  split_test_query seven_columns
    (base_conditions
     ++ [comparison EQ "event_id" (Literal None (SStr a32))]) [].

Definition query_in_event_id : Query :=
  split_test_query seven_columns
    (base_conditions
     ++ [comparison IN "event_id"
           (FunctionCall None "tuple"
              [Literal None (SStr a32); Literal None (SStr b32)])]) [].

Definition query_gt_event_id : Query :=
  split_test_query seven_columns
    (base_conditions
     ++ [comparison "greater" "event_id" (Literal None (SStr a32))]) [].

(** The equality on the identifier written with the column on the
    right. *)
Definition query_eq_reversed : Query :=
  split_test_query seven_columns
    (base_conditions
     ++ [FunctionCall None EQ
           [Literal None (SStr a32); Column None None "event_id"]]) [].

(** [do_query] of [test_col_split_conditions]: one row, whatever the
    query. *)
Definition one_row_runner (q : Query) : RunnerError + ResultSet :=
  inr [ {[ "event_id" := SStr "asd123";
           "project_id" := SInt 123;
           "timestamp" := SStr "2019-10-01 22:33:42" ]} ].





(** Queries for alias validation over a data source declaring [x]. *)
Definition source_x : RelationalSource :=
  {| get_columns := [{| flattened := "x" |}] |}.

Definition select_query (sel : list Expression) : Query :=
  Query_init ∅ (Some source_x)
    (Some (map (λ e, {| name := None; expression := e |}) sel))
    None None None None None None None None None None 0 false None.

(** A filter on a column that nobody declares, set as the [prewhere] of
    a query selecting [x], and as its [condition]. *)
Definition undeclared_filter : Expression :=
  FunctionCall None "equals"
    [Column None None "undeclared"; Literal None (SInt 1)].

Definition prewhere_undeclared_query : Query :=
  Query_init ∅ (Some source_x)
    (Some [{| name := Some "x"; expression := Column None None "x" |}])
    None None (Some undeclared_filter)
    None None None None None None None 0 false None.

Definition condition_undeclared_query : Query :=
  Query_init ∅ (Some source_x)
    (Some [{| name := Some "x"; expression := Column None None "x" |}])
    None (Some undeclared_filter) None
    None None None None None None None 0 false None.

(** ** Further methods of the query *)

(** [Query.set_prewhere_ast_condition]. *)
Definition set_prewhere_ast_condition (c : option Expression) (q : Query)
  : Query :=
  with_expressions (selected_columns q) (array_join q) (condition q)
                   (groupby q) (having q) (order_by q) c q.

(** The visitor that rebuilds each node as it is. *)
Definition rebuild_visitor : ExpressionVisitor Expression :=
  {| visit_literal := Literal;
     visit_column := Column;
     visit_subscriptable_reference := SubscriptableReference;
     visit_function_call := FunctionCall;
     visit_lambda := Lambda |}.

(** The columns among the sub-expressions of [e]. *)
Definition columns_of (e : Expression) : gset Expression :=
  list_to_set (filter (λ c, isinstance c TColumn = true) (iter e)).

(** A query with no clause at all, as [Query(body, data_source)] builds
    it. *)
Definition bare_query (body : gmap string Any)
    (data_source : option RelationalSource) : Query :=
  Query_init body data_source None None None None None None None None None
             None None 0 false None.

(** A data source declaring [x] and [y]. *)
Definition source_xy : RelationalSource :=
  {| get_columns := [{| flattened := "x" |}; {| flattened := "y" |}] |}.

(** * The tick consumer: [snuba/subscriptions/consumer.py] *)

Module Consumer.

(** A partition of a topic, as [arroyo.Partition(topic, index)]. *)
Definition Partition : Type := string * Z.

(** [arroyo.Message(partition, offset, payload, timestamp)].  Offsets
    are integers; timestamps and durations are counted in microseconds. *)
Record Message (P : Type) := {
  partition : Partition;
  message_offset : Z;
  payload : P;
  message_timestamp : Z }.
Arguments partition {P}.
Arguments message_offset {P}.
Arguments payload {P}.
Arguments message_timestamp {P}.

Record MessageDetails := {
  offset : Z;
  timestamp : Z }.

(** [snuba.utils.types.Interval] and [snuba.subscriptions.utils.Tick]
    are imported by the consumer; of the former the source shows the
    fields [lower] and [upper] and that building one can raise
    [InvalidRangeError], of the latter the constructor
    [Tick(partition, offsets, timestamps)] and the method [time_shift]. *)
Record Interval := {
  lower : Z;
  upper : Z }.

Record Tick := {
  tick_partition : option Z;
  offsets : Interval;
  timestamps : Interval }.

Inductive ConsumerException :=
| InvalidRangeError
| ConsumerError (msg : string).

Inductive outcome (A : Type) :=
| Return (a : A)
| Throw (exc : ConsumerException).
Arguments Return {A}.
Arguments Throw {A}.

(** The state of a [TickConsumer] besides the consumer it wraps. *)
Record TickConsumer := {
  previous_messages : gmap Partition MessageDetails;
  time_shift : Z;
  min_interval : option Z }.

(** [TickConsumer.__init__]: no previous message; an absent time shift
    is the zero [timedelta]. *)
Definition TickConsumer_init (time_shift min_interval : option Z)
  : TickConsumer :=
  {| previous_messages := ∅;
     time_shift := default 0 time_shift;
     min_interval := min_interval |}.

Definition with_previous_messages (m : gmap Partition MessageDetails)
    (self : TickConsumer) : TickConsumer :=
  {| previous_messages := m;
     time_shift := time_shift self;
     min_interval := min_interval self |}.

(** [del self.__previous_messages[partition]] for each of the given
    partitions that has an entry. *)
Definition forget (partitions : list Partition)
    (m : gmap Partition MessageDetails) : gmap Partition MessageDetails :=
  foldl (λ acc partition, delete partition acc) m partitions.

(** [revocation_callback] of [TickConsumer.subscribe], up to the call of
    the user's [on_revoke]. *)
Definition revocation_callback (self : TickConsumer)
    (partitions : list Partition) : TickConsumer :=
  with_previous_messages (forget partitions (previous_messages self)) self.

(** [TickConsumer.tell], given the offsets told by the wrapped
    consumer. *)
Definition tell (self : TickConsumer) (inner_tell : gmap Partition Z)
  : gmap Partition Z :=
  map_imap (λ partition inner_offset,
              Some (match previous_messages self !! partition with
                    | Some previous_message => offset previous_message
                    | None => inner_offset
                    end))
           inner_tell.

(** [TickConsumer.seek], given the offsets told by the wrapped consumer,
    up to the final call of its [seek]. *)
Definition seek (self : TickConsumer) (inner_tell offsets : gmap Partition Z)
  : outcome TickConsumer :=
  if bool_decide (dom offsets ∖ dom inner_tell ≠ ∅)
  then Throw (ConsumerError "cannot seek on unassigned partitions")
  else Return (with_previous_messages
                 (forget (elements (dom offsets)) (previous_messages self))
                 self).

Section Collaborators.

(** Whether [Interval(lower, upper)] can be built, and [Tick.time_shift]:
    neither class is among the sources. *)
Variable valid_range : Z → Z → bool.
Variable tick_time_shift : Tick → Z → Tick.

(** [TickConsumer.poll], given what the wrapped consumer's [poll]
    returned.  An invalid time interval and an interval shorter than
    [min_interval] both return [None] before the message is recorded; the
    interval of offsets is built outside the [try], so its failure is
    raised. *)
Definition poll {A} (self : TickConsumer) (message : option (Message A))
  : outcome (option (Message Tick) * TickConsumer) :=
  match message with
  | None => Return (None, self)
  | Some message =>
      let recorded :=
        with_previous_messages
          (<[partition message :=
               {| offset := message_offset message;
                  timestamp := message_timestamp message |}]>
             (previous_messages self))
          self in
      match previous_messages self !! partition message with
      | Some previous_message =>
          if negb (valid_range (timestamp previous_message)
                               (message_timestamp message))
          then Return (None, self)
          else
            let time_interval :=
              {| lower := timestamp previous_message;
                 upper := message_timestamp message |} in
            if match min_interval self with
               | Some m =>
                   bool_decide (upper time_interval - lower time_interval < m)
               | None => false
               end
            then Return (None, self)
            else if negb (valid_range (offset previous_message)
                                      (message_offset message))
            then Throw InvalidRangeError
            else
              Return
                (Some {| partition := partition message;
                         message_offset := offset previous_message;
                         payload :=
                           tick_time_shift
                             {| tick_partition := None;
                                offsets :=
                                  {| lower := offset previous_message;
                                     upper := message_offset message |};
                                timestamps := time_interval |}
                             (time_shift self);
                         message_timestamp := message_timestamp message |},
                 recorded)
      | None => Return (None, recorded)
      end
  end.

(** Successive calls of [poll] on the messages delivered by the wrapped
    consumer; each tick returned is paired with the message that
    produced it.  An exception ends the run. *)
Fixpoint poll_all {A} (self : TickConsumer) (messages : list (Message A))
  : outcome (list (Message A * Message Tick) * TickConsumer) :=
  match messages with
  | [] => Return ([], self)
  | message :: rest =>
      match poll self (Some message) with
      | Throw exc => Throw exc
      | Return (result, self') =>
          match poll_all self' rest with
          | Throw exc => Throw exc
          | Return (ticks, self'') =>
              Return (match result with
                      | Some tick => (message, tick) :: ticks
                      | None => ticks
                      end, self'')
          end
      end
  end.

End Collaborators.

(** The ticks of a run follow one another: each carries the offset at
    which the previous one ended. *)
Fixpoint contiguous {A} (start : Z) (ticks : list (Message A * Message Tick))
  : Prop :=
  match ticks with
  | [] => True
  | (message, tick) :: rest =>
      message_offset tick = start ∧ contiguous (message_offset message) rest
  end.

(** The offset at which the last tick of a run ended, [start] when
    there is none. *)
Fixpoint last_offset {A} (ticks : list (Message A * Message Tick)) (start : Z)
  : Z :=
  match ticks with
  | [] => start
  | (message, _) :: rest => last_offset rest (message_offset message)
  end.

(** The usual interval check and time shift, for the scenarios. *)
Definition leq_range (lower upper : Z) : bool := bool_decide (lower ≤ upper).

Definition shift_timestamps (tick : Tick) (delta : Z) : Tick :=
  {| tick_partition := tick_partition tick;
     offsets := offsets tick;
     timestamps := {| lower := lower (timestamps tick) + delta;
                      upper := upper (timestamps tick) + delta |} |}.

Definition topic0 : Partition := ("topic"%string, 0).
Definition topic1 : Partition := ("topic"%string, 1).

Definition message_at (p : Partition) (o t : Z) : Message unit :=
  {| partition := p; message_offset := o; payload := ();
     message_timestamp := t |}.

(** A consumer with a minimum interval of ten, after a first message at
    offset 0 and time 100 on [topic0]; a message too close to it, and a
    later one with the tick it produces. *)
Definition after_first : TickConsumer :=
  {| previous_messages := {[ topic0 := {| offset := 0; timestamp := 100 |} ]};
     time_shift := 0;
     min_interval := Some 10 |}.

Definition close_message : Message unit := message_at topic0 1 105.

Definition late_message : Message unit := message_at topic0 2 120.

Definition late_tick : Message Tick :=
  {| partition := topic0;
     message_offset := 0;
     payload := {| tick_partition := None;
                   offsets := {| lower := 0; upper := 2 |};
                   timestamps := {| lower := 100; upper := 120 |} |};
     message_timestamp := 120 |}.

Definition after_late : TickConsumer :=
  {| previous_messages := {[ topic0 := {| offset := 2; timestamp := 120 |} ]};
     time_shift := 0;
     min_interval := Some 10 |}.

End Consumer.

(** * The anonymizing formatter: [snuba/query/formatters/anonymize.py] *)

Module Anonymize.

(** The nodes of [snuba.clickhouse.formatter.nodes] the module builds. *)
Inductive FormattedNode :=
| StringNode (value : string)
| PaddingNode (prefix : string) (node : FormattedNode)
| FormattedSubQuery (content : list FormattedNode).

(** The limit-by clause as the formatter reads it. *)
Record LimitBy := {
  lb_limit : Z;
  lb_expression : Expression }.

(** What the formatter reads of a query ([snuba.query.Query], not among
    the sources), by accessor; [F] is the type of its from clause. *)
Record AbstractQuery (F : Type) := {
  get_selected_columns : list SelectedExpression;
  get_groupby : list Expression;
  get_orderby : list OrderBy;
  get_arrayjoin : option Expression;
  get_condition : option Expression;
  get_having : option Expression;
  get_limitby : option LimitBy;
  get_limit : option Z;
  get_offset : Z;
  get_from_clause : F }.
Arguments get_selected_columns {F}.
Arguments get_groupby {F}.
Arguments get_orderby {F}.
Arguments get_arrayjoin {F}.
Arguments get_condition {F}.
Arguments get_having {F}.
Arguments get_limitby {F}.
Arguments get_limit {F}.
Arguments get_offset {F}.
Arguments get_from_clause {F}.

(** [str(n)] for an [int]. *)
Definition str_of_int (n : Z) : string := NilZero.string_of_int (Z.to_int n).

(** [OrderByDirection.value]. *)
Definition direction_value (d : OrderByDirection) : string :=
  match d with
  | ASC => "ASC"
  | DESC => "DESC"
  end.

Definition _format_select {F} (query : AbstractQuery F)
    (formatter : ExpressionVisitor string) : FormattedNode :=
  let selected_cols :=
    map (λ e, accept formatter (expression e)) (get_selected_columns query) in
  StringNode ("SELECT " +:+ String.concat ", " selected_cols).

Definition _format_groupby {F} (query : AbstractQuery F)
    (formatter : ExpressionVisitor string) : option FormattedNode :=
  match get_groupby query with
  | [] => None
  | ast_groupby =>
      let selected_cols := map (accept formatter) ast_groupby in
      Some (StringNode ("GROUPBY " +:+ String.concat ", " selected_cols))
  end.

Definition _format_orderby {F} (query : AbstractQuery F)
    (formatter : ExpressionVisitor string) : option FormattedNode :=
  match get_orderby query with
  | [] => None
  | ast_orderby =>
      let orderby :=
        map (λ e, accept formatter (ob_expression e) +:+ " "
                  +:+ direction_value (direction e))
            ast_orderby in
      Some (StringNode ("ORDER BY " +:+ String.concat ", " orderby))
  end.

Definition _build_optional_string_node (name : string)
    (expression : option Expression) (formatter : ExpressionVisitor string)
  : option FormattedNode :=
  match expression with
  | Some e => Some (StringNode (name +:+ " " +:+ accept formatter e))
  | None => None
  end.

Definition _format_limitby {F} (query : AbstractQuery F)
    (formatter : ExpressionVisitor string) : option FormattedNode :=
  match get_limitby query with
  | Some ast_limitby =>
      Some (StringNode ("LIMIT " +:+ str_of_int (lb_limit ast_limitby)
                        +:+ " BY "
                        +:+ accept formatter (lb_expression ast_limitby)))
  | None => None
  end.

Definition _format_limit {F} (query : AbstractQuery F)
    (formatter : ExpressionVisitor string) : option FormattedNode :=
  match get_limit query with
  | Some ast_limit => Some (StringNode ("LIMIT " +:+ str_of_int ast_limit))
  | None => None
  end.

(** The offset of a query is an [int], so the test [offset is not None]
    always holds. *)
Definition _format_offset {F} (query : AbstractQuery F)
    (formatter : ExpressionVisitor string) : option FormattedNode :=
  Some (StringNode ("OFFSET " +:+ str_of_int (get_offset query))).

(** [_format_query_content], given the formatter instance and the
    visit of the from clause by [StringQueryFormatter], whose dispatch
    ([DataSourceVisitor.visit]) is not among the sources: the ten
    candidate nodes, without those that are [None]. *)
Definition _format_query_content {F} (visit : F → FormattedNode)
    (query : AbstractQuery F) (formatter : ExpressionVisitor string)
  : list FormattedNode :=
  omap id
    [ Some (_format_select query formatter);
      _format_groupby query formatter;
      _format_orderby query formatter;
      _build_optional_string_node "ARRAY JOIN" (get_arrayjoin query) formatter;
      _build_optional_string_node "WHERE" (get_condition query) formatter;
      _build_optional_string_node "HAVING" (get_having query) formatter;
      _format_limitby query formatter;
      _format_limit query formatter;
      _format_offset query formatter;
      Some (PaddingNode "FROM" (visit (get_from_clause query))) ].

(** The number of optional clauses a query carries. *)
Definition clauses_present {F} (query : AbstractQuery F) : nat :=
  (if get_groupby query is [] then 0 else 1)
  + (if get_orderby query is [] then 0 else 1)
  + (if get_arrayjoin query is None then 0 else 1)
  + (if get_condition query is None then 0 else 1)
  + (if get_having query is None then 0 else 1)
  + (if get_limitby query is None then 0 else 1)
  + (if get_limit query is None then 0 else 1).

Definition is_string_node (n : FormattedNode) : Prop :=
  ∃ value, n = StringNode value.

End Anonymize.

(** * Properties *)

(** ** Sub-expression sequences *)

Lemma iter_self (e : Expression) : e ∈ iter e.
Proof. destruct e; simpl; left. Qed.

Lemma elem_of_flat_map_iter (x : Expression) (l : list Expression) :
  x ∈ flat_map iter l ↔ ∃ y, y ∈ l ∧ x ∈ iter y.
Proof.
  induction l as [|z l IH]; simpl.
  - split; [intros H; by apply elem_of_nil in H|].
    intros (y & H & _). by apply elem_of_nil in H.
  - rewrite elem_of_app, IH. split.
    + intros [H|(y & Hy & H)]; [exists z|exists y]; split; try done;
        [left|by right].
    + intros (y & Hy & H). apply elem_of_cons in Hy as [->|Hy];
        [by left|right; by exists y].
Qed.

(** Being a sub-expression is transitive. *)
Lemma iter_trans (z : Expression) :
  ∀ x y, x ∈ iter y → y ∈ iter z → x ∈ iter z.
Proof.
  induction z as [| |a c k IHc IHk|a n ps IH|a ps t IHt] using Expression_ind';
    intros x y Hxy Hyz; simpl in Hyz.
  - apply list_elem_of_singleton in Hyz as ->. done.
  - apply list_elem_of_singleton in Hyz as ->. done.
  - apply elem_of_cons in Hyz as [->|Hyz]; [done|].
    simpl. right. apply elem_of_app in Hyz as [Hyz|Hyz]; apply elem_of_app.
    + left. by eapply IHc.
    + right. by eapply IHk.
  - apply elem_of_cons in Hyz as [->|Hyz]; [done|].
    simpl. right. apply elem_of_flat_map_iter in Hyz as (p & Hp & Hyp).
    apply elem_of_flat_map_iter. exists p. split; [done|].
    rewrite Forall_forall in IH. by eapply IH.
  - apply elem_of_cons in Hyz as [->|Hyz]; [done|].
    simpl. right. by eapply IHt.
Qed.

Lemma iter_or_empty_option_list (o : option Expression) :
  iter_or_empty o = flat_map iter (option_list o).
Proof. destruct o; simpl; by rewrite ?app_nil_r. Qed.

Lemma concat_map_flat_map {A B} (f : A → list B) (l : list A) :
  concat (map f l) = flat_map f l.
Proof. induction l; simpl; congruence. Qed.

(** The traversal is the concatenation of the sequences of the roots. *)
Lemma get_all_expressions_roots (q : Query) :
  get_all_expressions q = flat_map iter (roots q).
Proof.
  unfold get_all_expressions, roots.
  rewrite !flat_map_app, !concat_map_flat_map, !iter_or_empty_option_list.
  done.
Qed.

Lemma elem_of_get_all_expressions (q : Query) (x : Expression) :
  x ∈ get_all_expressions q ↔ ∃ r, r ∈ roots q ∧ x ∈ iter r.
Proof. rewrite get_all_expressions_roots. apply elem_of_flat_map_iter. Qed.

(** The traversal is closed under taking sub-expressions. *)
Lemma get_all_expressions_closed (q : Query) (x y : Expression) :
  x ∈ iter y → y ∈ get_all_expressions q → x ∈ get_all_expressions q.
Proof.
  rewrite !elem_of_get_all_expressions. intros Hxy (r & Hr & Hyr).
  exists r. split; [done|]. by eapply iter_trans.
Qed.

Lemma occurrences_app (e : Expression) (l1 l2 : list Expression) :
  occurrences e (l1 ++ l2) = (occurrences e l1 + occurrences e l2)%nat.
Proof. unfold occurrences. by rewrite filter_app, length_app. Qed.

Lemma occurrences_flat_map (e : Expression) (rs : list Expression) :
  occurrences e (flat_map iter rs)
  = sum_list (map (λ r, occurrences e (iter r)) rs).
Proof.
  induction rs as [|r rs IH]; [done|].
  simpl. by rewrite occurrences_app, IH.
Qed.

Lemma occurrences_pos (e : Expression) (l : list Expression) :
  e ∈ l → (0 < occurrences e l)%nat.
Proof.
  intros H. unfold occurrences.
  assert (e ∈ filter (λ x, x = e) l) as Hf by (by apply list_elem_of_filter).
  destruct (filter _ l); [by apply elem_of_nil in Hf | simpl; lia].
Qed.

(** ** Referenced expressions *)

Lemma elem_of_get_all_ast_referenced_expressions
    (l : list Expression) (t : ExpType) (c : Expression) :
  c ∈ get_all_ast_referenced_expressions l t
  ↔ ∃ e, e ∈ l ∧ c ∈ iter e ∧ type_of c = t.
Proof.
  unfold get_all_ast_referenced_expressions.
  assert (∀ (S0 : gset Expression),
    c ∈ foldl (λ ret expression,
                 ret ∪ list_to_set
                   (filter (λ c, isinstance c t = true) (iter expression)))
              S0 l
    ↔ c ∈ S0 ∨ ∃ e, e ∈ l ∧ c ∈ iter e ∧ type_of c = t) as Hgen.
  { induction l as [|x l IH]; intros S0; simpl.
    - split; [by left|]. intros [?|(e & He & _)]; [done|].
      by apply elem_of_nil in He.
    - rewrite IH, elem_of_union, elem_of_list_to_set, list_elem_of_filter.
      unfold isinstance. rewrite bool_decide_eq_true.
      split.
      + intros [[?|[? ?]]|(e & He & ? & ?)]; [by left| |].
        * right. exists x. split; [left|done].
        * right. exists e. split; [by right|done].
      + intros [?|(e & He & ? & ?)]; [by left; left|].
        apply elem_of_cons in He as [->|He].
        * left. by right.
        * right. by exists e. }
  rewrite Hgen. split; [|by right].
  intros [H|H]; [by apply elem_of_empty in H|done].
Qed.

(** Over the whole query, the accessor returns exactly the distinct
    expressions of the requested class that the traversal yields. *)
Lemma elem_of_referenced_in_query (q : Query) (t : ExpType) (c : Expression) :
  c ∈ get_all_ast_referenced_expressions (get_all_expressions q) t
  ↔ c ∈ get_all_expressions q ∧ type_of c = t.
Proof.
  rewrite elem_of_get_all_ast_referenced_expressions. split.
  - intros (e & He & Hc & Ht). split; [|done].
    by eapply get_all_expressions_closed.
  - intros [Hc Ht]. exists c. split; [done|]. split; [apply iter_self|done].
Qed.

(** The shared column is yielded once per root, and counted once by the
    set accessor. *)
Lemma shared_column_yielded_twice :
  get_all_expressions shared_column_query
  = [Column None None "x";
     FunctionCall None "greater" [Column None None "x"; Literal None (SInt 1)];
     Column None None "x"; Literal None (SInt 1)]
  ∧ occurrences (Column None None "x")
                (get_all_expressions shared_column_query) = 2%nat
  ∧ get_all_ast_referenced_columns shared_column_query
    = {[Column None None "x"]}.
Proof.
  split; [reflexivity|]. split; [reflexivity|].
  apply set_eq. intros c.
  unfold get_all_ast_referenced_columns.
  rewrite elem_of_referenced_in_query, elem_of_singleton.
  split.
  - intros [Hc Ht]. simpl in Hc.
    repeat (apply elem_of_cons in Hc as [->|Hc]; try done).
    by apply elem_of_nil in Hc.
  - intros ->. split; [left|done].
Qed.

(** C4: [get_all_expressions] yields the sequences of the select list,
    array join, condition, group by, having and order by, in this order;
    nothing is deduplicated: an expression is yielded as many times as it
    occurs under the roots, hence at least twice when two distinct roots
    contain it; [get_all_ast_referenced_columns] and
    [get_all_ast_referenced_subscripts] are sets holding exactly the
    columns, respectively the subscripts, that the traversal yields. *)
Theorem get_all_expressions_order_no_dedup (q : Query) :
  get_all_expressions q
  = flat_map (λ s, iter (expression s)) (selected_columns q)
    ++ flat_map iter (option_list (array_join q))
    ++ flat_map iter (option_list (condition q))
    ++ flat_map iter (groupby q)
    ++ flat_map iter (option_list (having q))
    ++ flat_map (λ o, iter (ob_expression o)) (order_by q)
  ∧ (∀ e, occurrences e (get_all_expressions q)
          = sum_list (map (λ r, occurrences e (iter r)) (roots q)))
  ∧ (∀ e i j r1 r2, i ≠ j → roots q !! i = Some r1 → roots q !! j = Some r2 →
       e ∈ iter r1 → e ∈ iter r2 →
       (2 ≤ occurrences e (get_all_expressions q))%nat)
  ∧ (∀ c, c ∈ get_all_ast_referenced_columns q
          ↔ c ∈ get_all_expressions q ∧ type_of c = TColumn)
  ∧ (∀ c, c ∈ get_all_ast_referenced_subscripts q
          ↔ c ∈ get_all_expressions q ∧ type_of c = TSubscriptableReference)
  ∧ NoDup (elements (get_all_ast_referenced_columns q))
  ∧ NoDup (elements (get_all_ast_referenced_subscripts q)).
Proof.
  split.
  { unfold get_all_expressions.
    rewrite !concat_map_flat_map, !iter_or_empty_option_list.
    rewrite !flat_map_concat_map, !map_map. done. }
  split.
  { intros e. rewrite get_all_expressions_roots. apply occurrences_flat_map. }
  split.
  { intros e i j r1 r2 Hij H1 H2 He1 He2.
    rewrite get_all_expressions_roots, occurrences_flat_map.
    assert (∀ (l : list Expression) i j, (i < j)%nat →
              ∀ r1 r2, l !! i = Some r1 → l !! j = Some r2 →
              e ∈ iter r1 → e ∈ iter r2 →
              (2 ≤ sum_list (map (λ r, occurrences e (iter r)) l))%nat)
      as Hlt.
    { clear. induction l as [|x l IH]; intros i j Hij r1 r2 H1 H2 He1 He2;
        [done|].
      destruct j as [|j]; [lia|]. simpl in H2.
      assert (0 < sum_list (map (λ r, occurrences e (iter r)) l))%nat as Hl.
      { clear -H2 He2. revert j H2.
        induction l as [|y l IH]; intros j H2; [done|].
        destruct j as [|j]; simpl in *.
        - injection H2 as ->. pose proof (occurrences_pos _ _ He2). lia.
        - specialize (IH _ H2). lia. }
      destruct i as [|i]; simpl in *.
      - injection H1 as ->. pose proof (occurrences_pos _ _ He1). lia.
      - assert (i < j)%nat as Hij' by lia.
        specialize (IH _ _ Hij' _ _ H1 H2 He1 He2). lia. }
    destruct (decide (i < j)%nat).
    - by eapply (Hlt _ i j).
    - eapply (Hlt _ j i); [lia|done..]. }
  split; [intros c; apply elem_of_referenced_in_query|].
  split; [intros c; apply elem_of_referenced_in_query|].
  split; apply NoDup_elements.
Qed.

(** ** Data source and entity binding *)

(** C8: on a query whose data source has not been provided,
    [get_data_source] fails with the unbound-data-source assertion; once
    [set_data_source ds] has run, [get_data_source] returns [ds]. *)
Theorem get_data_source_bound_after_set (q : Query) (ds : RelationalSource) :
  data_source q = None →
  get_data_source q = Raise UnboundDataSource
  ∧ get_data_source (set_data_source ds q) = Ok ds.
Proof. intros H. unfold get_data_source. rewrite H. done. Qed.

Lemma get_data_source_bound_after_set_witness :
  data_source shared_column_query = None
  ∧ get_data_source shared_column_query = Raise UnboundDataSource
  ∧ get_data_source
      (set_data_source {| get_columns := [{| flattened := "x" |}] |}
                       shared_column_query)
    = Ok {| get_columns := [{| flattened := "x" |}] |}.
Proof.
  split; [reflexivity|].
  apply (get_data_source_bound_after_set shared_column_query
           {| get_columns := [{| flattened := "x" |}] |}).
  reflexivity.
Defined.

(** C9: the entity is bound at most once.  With no entity bound,
    [get_entity] fails and [set_entity e] succeeds, after which
    [get_entity] returns [e] and any further [set_entity] fails; with an
    entity bound, [set_entity] fails.  The failures are the bare
    assertions of the two methods. *)
Theorem set_entity_single_assignment (q : Query) (e : Entity) :
  (entity q = None →
     get_entity q = Raise InvariantViolation
     ∧ ∃ q', set_entity e q = Ok q'
             ∧ get_entity q' = Ok e
             ∧ ∀ e', set_entity e' q' = Raise InvariantViolation)
  ∧ (∀ e0, entity q = Some e0 → set_entity e q = Raise InvariantViolation).
Proof.
  split.
  - intros H. unfold get_entity, set_entity. rewrite H.
    split; [done|]. eexists. split; [done|]. simpl. done.
  - intros e0 H. unfold set_entity. by rewrite H.
Qed.

Lemma set_entity_single_assignment_witness :
  entity shared_column_query = None
  ∧ get_entity shared_column_query = Raise InvariantViolation
  ∧ ∃ q', set_entity {| key := "events" |} shared_column_query = Ok q'
          ∧ get_entity q' = Ok {| key := "events" |}
          ∧ ∀ e', set_entity e' q' = Raise InvariantViolation.
Proof.
  split; [reflexivity|].
  apply (proj1 (set_entity_single_assignment shared_column_query
                  {| key := "events" |})).
  reflexivity.
Defined.

(** ** In-place transformation *)

(** Every root yielded by the traversal is replaced by its transform. *)
Lemma transform_expressions_roots (func : Expression → Expression) (q : Query) :
  roots (transform_expressions func q) = map (transform func) (roots q).
Proof.
  unfold roots, transform_expressions. simpl.
  rewrite !map_app, !map_map. simpl.
  by destruct (array_join q), (condition q), (having q).
Qed.

(** C10: [transform_expressions] leaves [prewhere], [limitby], [sample],
    [limit], [offset], [totals], [granularity], [final], [data_source]
    and [entity] as they were. *)
Theorem transform_expressions_frame
    (func : Expression → Expression) (q : Query) :
  let q' := transform_expressions func q in
  prewhere q' = prewhere q
  ∧ limitby q' = limitby q
  ∧ sample q' = sample q
  ∧ limit q' = limit q
  ∧ offset q' = offset q
  ∧ totals q' = totals q
  ∧ granularity q' = granularity q
  ∧ final q' = final q
  ∧ data_source q' = data_source q
  ∧ entity q' = entity q.
Proof. by repeat split. Qed.

(** C3: on [prewhere_query], [transform_expressions] rewrites the
    condition but leaves the [prewhere] root as it was, although its
    transform is a different expression; the visitor-based [transform]
    rewrites it. *)
Theorem transform_expressions_skips_prewhere :
  let q' := transform_expressions rename_a prewhere_query in
  condition q' = Some (Column None None "b")
  ∧ prewhere q' = Some (Column None None "a")
  ∧ transform rename_a (Column None None "a") = Column None None "b"
  ∧ prewhere (transform_visitor rename_a_visitor prewhere_query)
    = Some (Column None None "b").
Proof. by repeat split. Qed.

Lemma get_all_expressions_order_no_dedup_witness :
  (2 ≤ occurrences (Column None None "x")
         (get_all_expressions shared_column_query))%nat.
Proof.
  apply (proj1 (proj2 (proj2
           (get_all_expressions_order_no_dedup shared_column_query)))
           (Column None None "x") 0%nat 1%nat
           (Column None None "x")
           (FunctionCall None "greater"
              [Column None None "x"; Literal None (SInt 1)])).
  - lia.
  - reflexivity.
  - reflexivity.
  - left.
  - right. left.
Defined.

(** ** Alias validation *)

Lemma truthy_Some (s : string) : truthy (Some s) = true ↔ s ≠ "".
Proof.
  simpl. rewrite negb_true_iff. split.
  - intros H ->. by rewrite String.eqb_refl in H.
  - intros H. by apply String.eqb_neq.
Qed.

(** C2: in the validation loop, a column aliased to its own qualified
    name only adds that name to the referenced symbols; a column aliased
    to another name adds its qualified name to the referenced symbols and
    its alias to the declared ones; an aliased expression that is not a
    column only adds its alias to the declared symbols.  In the last two
    cases the alias is present in the sense of the loop's test, that is,
    it is a non-empty string. *)
Theorem validate_aliases_step_cases (D R : gset string) :
  (∀ s t c, s = qualified_col_name t c →
     validate_aliases_step (D, R) (Column (Some s) t c) = (D, R ∪ {[s]}))
  ∧ (∀ s t c, s ≠ "" → s ≠ qualified_col_name t c →
       validate_aliases_step (D, R) (Column (Some s) t c)
       = (D ∪ {[s]}, R ∪ {[qualified_col_name t c]}))
  ∧ (∀ e s, alias e = Some s → s ≠ "" → type_of e ≠ TColumn →
       validate_aliases_step (D, R) e = (D ∪ {[s]}, R)).
Proof.
  split; [|split].
  - intros s t c Hq. unfold validate_aliases_step. cbn [alias].
    destruct (truthy (Some s)) eqn:Hs.
    + cbn [str_of default id]. rewrite <- Hq, String.eqb_refl. done.
    + assert (s = "") as -> by (destruct (decide (s = "")) as [?|Hn];
        [done|apply truthy_Some in Hn; congruence]).
      unfold qualified_col_name in Hq.
      destruct (truthy t); simpl in *; [by destruct (str_of t)|by subst].
  - intros s t c Hs Hq. unfold validate_aliases_step.
    cbn [alias]. rewrite (proj2 (truthy_Some s) Hs). cbn [str_of default id].
    apply String.eqb_neq in Hq. rewrite Hq. done.
  - intros e s Ha Hs Ht. unfold validate_aliases_step.
    rewrite Ha, (proj2 (truthy_Some s) Hs).
    destruct e; simpl in *; subst; done.
Qed.

Lemma validate_aliases_step_cases_witness :
  validate_aliases_step (∅, ∅) (Column (Some "a") None "a")
  = (∅, ∅ ∪ {["a"]})
  ∧ validate_aliases_step (∅, ∅) (Column (Some "b") None "a")
    = (∅ ∪ {["b"]}, ∅ ∪ {["a"]})
  ∧ validate_aliases_step (∅, ∅)
      (FunctionCall (Some "A") "f" [Column None None "x"])
    = (∅ ∪ {["A"]}, ∅).
Proof.
  pose proof (validate_aliases_step_cases ∅ ∅) as (H1 & H2 & H3).
  split; [|split].
  - apply (H1 "a" None "a"). reflexivity.
  - apply (H2 "b" None "a"); [discriminate|discriminate].
  - apply (H3 (FunctionCall (Some "A") "f" [Column None None "x"]) "A");
      [reflexivity|discriminate|discriminate].
Defined.

Lemma step_declared (D R : gset string) (e : Expression) (s : string) :
  s ∈ (validate_aliases_step (D, R) e).1 ↔ s ∈ D ∨ declares e s.
Proof.
  unfold validate_aliases_step.
  destruct (truthy (alias e)) eqn:Ha.
  - destruct e as [a v|a t c|a c k|a n ps|a ps t]; simpl in *;
      try (rewrite elem_of_union, elem_of_singleton; split;
           [ intros [?| ->]; [by left|right];
             by apply declares_other
           | intros [?|Hd]; [by left|right]; by inversion Hd ]).
    destruct (String.eqb (str_of a) (qualified_col_name t c)) eqn:E; simpl.
    + apply String.eqb_eq in E. split; [by left|].
      intros [?|Hd]; [done|]. inversion Hd; subst; done.
    + apply String.eqb_neq in E.
      rewrite elem_of_union, elem_of_singleton. split.
      * intros [?| ->]; [by left|right]. by constructor.
      * intros [?|Hd]; [by left|right]. by inversion Hd.
  - assert (¬ declares e s) as Hn.
    { intros Hd. inversion Hd; subst; simpl in *; congruence. }
    destruct e as [a v|a t c|a c k|a n ps|a ps t]; simpl;
      try (split; [by left|by intros [?|?]]).
    destruct (negb (truthy a) && negb (truthy t)); simpl;
      (split; [by left|by intros [?|?]]).
Qed.

Lemma step_referenced (D R : gset string) (e : Expression) (s : string) :
  s ∈ (validate_aliases_step (D, R) e).2 ↔ s ∈ R ∨ references e s.
Proof.
  unfold validate_aliases_step.
  destruct (truthy (alias e)) eqn:Ha.
  - destruct e as [a v|a t c|a c k|a n ps|a ps t]; simpl in *;
      try (split; [by left|intros [?|Hr]; [done|by inversion Hr]]).
    assert (s ∈ R ∪ {[qualified_col_name t c]}
            ↔ s ∈ R ∨ references (Column a t c) s) as Hiff.
    { rewrite elem_of_union, elem_of_singleton. split.
      - intros [?| ->]; [by left|right]. by constructor.
      - intros [?|Hr]; [by left|right].
        inversion Hr; subst; [congruence|done]. }
    by destruct (negb (String.eqb (str_of a) (qualified_col_name t c))).
  - destruct e as [a v|a t c|a c k|a n ps|a ps t]; simpl in *;
      try (split; [by left|intros [?|Hr]; [done|by inversion Hr]]).
    rewrite Ha. simpl. destruct (truthy t) eqn:Et; simpl.
    + split; [by left|]. intros [?|Hr]; [done|].
      inversion Hr; subst; congruence.
    + rewrite elem_of_union, elem_of_singleton. split.
      * intros [?| ->]; [by left|right]. by constructor.
      * intros [?|Hr]; [by left|right]. inversion Hr; subst; [done|congruence].
Qed.

(** After the loop, the two sets hold exactly the symbols declared and
    referenced by the expressions visited. *)
Lemma validate_aliases_loop (l : list Expression) :
  ∀ (D R : gset string) (s : string),
    (s ∈ (foldl validate_aliases_step (D, R) l).1
     ↔ s ∈ D ∨ ∃ e, e ∈ l ∧ declares e s)
    ∧ (s ∈ (foldl validate_aliases_step (D, R) l).2
       ↔ s ∈ R ∨ ∃ e, e ∈ l ∧ references e s).
Proof.
  induction l as [|x l IH]; intros D R s; cbn [foldl].
  - simpl. split; (split; [by left|]); intros [?|(e & He & _)]; try done;
      by apply elem_of_nil in He.
  - destruct (validate_aliases_step (D, R) x) as [D' R'] eqn:Hstep.
    pose proof (step_declared D R x) as HD.
    pose proof (step_referenced D R x) as HR.
    rewrite Hstep in HD, HR. simpl in HD, HR.
    destruct (IH D' R' s) as [IHD IHR]. rewrite IHD, IHR, HD, HR.
    split; split.
    + intros [[?|?]|(e & He & ?)]; [by left| |].
      * right. exists x. split; [left|done].
      * right. exists e. split; [by right|done].
    + intros [?|(e & He & ?)]; [by left; left|].
      apply elem_of_cons in He as [->|He]; [left; by right|].
      right. by exists e.
    + intros [[?|?]|(e & He & ?)]; [by left| |].
      * right. exists x. split; [left|done].
      * right. exists e. split; [by right|done].
    + intros [?|(e & He & ?)]; [by left; left|].
      apply elem_of_cons in He as [->|He]; [left; by right|].
      right. by exists e.
Qed.

(** Without a [prewhere] clause, the expressions occurring in the query
    are those the traversal yields. *)
Lemma occurs_in_traversal (q : Query) (e : Expression) :
  prewhere q = None → (occurs_in q e ↔ e ∈ get_all_expressions q).
Proof.
  intros Hpw. rewrite elem_of_get_all_expressions.
  unfold occurs_in, clause_expressions, roots. rewrite Hpw. done.
Qed.

(** On a query without [prewhere] and with a data source bound,
    [validate_aliases] returns a boolean, which is true exactly when
    every symbol referenced in a clause of the query is declared in a
    clause of the query or by the data source; a bare column that
    neither declares makes it false. *)
Lemma validate_aliases_without_prewhere (q : Query) (ds : RelationalSource) :
  prewhere q = None →
  data_source q = Some ds →
  ∃ b, validate_aliases q = Ok b
       ∧ (b = true ↔ ∀ s, referenced_symbols q s → declared_symbols q ds s)
       ∧ (∀ a t c, truthy a = false → truthy t = false →
                   occurs_in q (Column a t c) →
                   ¬ declared_symbols q ds c → b = false).
Proof.
  intros Hpw Hds. unfold validate_aliases, get_data_source. rewrite Hds.
  destruct (foldl validate_aliases_step (∅, ∅) (get_all_expressions q))
    as [D R] eqn:Hfold.
  simpl. eexists. split; [reflexivity|].
  assert (∀ s, s ∈ R ↔ referenced_symbols q s) as HR.
  { intros s. pose proof (validate_aliases_loop (get_all_expressions q) ∅ ∅ s)
      as [_ H]. rewrite Hfold in H. simpl in H. rewrite H.
    unfold referenced_symbols. split.
    - intros [H0|(e & He & ?)]; [by apply elem_of_empty in H0|].
      exists e. split; [by apply occurs_in_traversal|done].
    - intros (e & He & ?). right. exists e.
      split; [by apply occurs_in_traversal|done]. }
  assert (∀ s, s ∈ D ∪ list_to_set (map flattened (get_columns ds))
               ↔ declared_symbols q ds s) as HD.
  { intros s. pose proof (validate_aliases_loop (get_all_expressions q) ∅ ∅ s)
      as [H _]. rewrite Hfold in H. simpl in H.
    rewrite elem_of_union, H, elem_of_list_to_set.
    unfold declared_symbols. split.
    - intros [[H0|(e & He & ?)]|?];
        [by apply elem_of_empty in H0| |by right].
      left. exists e. split; [by apply occurs_in_traversal|done].
    - intros [(e & He & ?)|?]; [|by right].
      left. right. exists e. split; [by apply occurs_in_traversal|done]. }
  assert (bool_decide
            (R ∖ (D ∪ list_to_set (map flattened (get_columns ds))) = ∅)
          = true
          ↔ ∀ s, referenced_symbols q s → declared_symbols q ds s) as Hiff.
  { rewrite bool_decide_eq_true. split.
    - intros Hempty s Hs. apply HD. apply HR in Hs.
      destruct (decide
        (s ∈ D ∪ list_to_set (map flattened (get_columns ds))))
        as [?|Hn]; [done|].
      assert (s ∈ R ∖ (D ∪ list_to_set (map flattened (get_columns ds))))
        as Hin by (by apply elem_of_difference).
      rewrite Hempty in Hin. by apply elem_of_empty in Hin.
    - intros Hsub. apply set_eq. intros s.
      rewrite elem_of_difference, HR, HD. split.
      + intros [Hr Hn]. destruct Hn. by apply Hsub.
      + intros H0. by apply elem_of_empty in H0. }
  split; [exact Hiff|].
  intros a t c Ha Ht Hc Hn. apply not_true_is_false. intros Htrue.
  apply Hn. apply (proj1 Hiff Htrue). exists (Column a t c).
  split; [done|]. by constructor.
Qed.

Lemma declares_alias (e : Expression) (s : string) :
  declares e s → truthy (alias e) = true.
Proof. by intros [a t c Ha _|e' Ha _]. Qed.

(** C1: the query selects [x] from a source declaring [x] and filters,
    in [prewhere], on a bare column that neither the source nor the
    query declares.  The column is a referenced symbol of the query and
    is not a declared one, yet [validate_aliases] returns true; with the
    same filter as [condition] it returns false. *)
Theorem validate_aliases_misses_prewhere :
  data_source prewhere_undeclared_query = Some source_x
  ∧ referenced_symbols prewhere_undeclared_query "undeclared"
  ∧ ¬ declared_symbols prewhere_undeclared_query source_x "undeclared"
  ∧ validate_aliases prewhere_undeclared_query = Ok true
  ∧ validate_aliases condition_undeclared_query = Ok false.
Proof.
  split; [reflexivity|]. split; [|split].
  - exists (Column None None "undeclared"). split; [|by constructor].
    exists undeclared_filter. split.
    + unfold clause_expressions. simpl. right. left.
    + simpl. right. left.
  - intros [(e & (clause & Hclause & He) & Hd)|Hs].
    + apply declares_alias in Hd.
      unfold clause_expressions in Hclause. simpl in Hclause.
      repeat (apply elem_of_cons in Hclause as [->|Hclause]);
        [| |by apply elem_of_nil in Hclause]; simpl in He;
        repeat (apply elem_of_cons in He as [->|He]);
        try (by apply elem_of_nil in He); done.
    + simpl in Hs. apply list_elem_of_singleton in Hs. done.
  - split; vm_compute; reflexivity.
Qed.

(** The validation on small queries: an undeclared bare column, a
    declared one, [SELECT a AS a] with [a] unknown to the source, and a
    bare reference to an alias declared by a function call. *)
Lemma validate_aliases_examples :
  validate_aliases (select_query [Column None None "y"]) = Ok false
  ∧ validate_aliases (select_query [Column None None "x"]) = Ok true
  ∧ validate_aliases (select_query [Column (Some "a") None "a"]) = Ok false
  ∧ validate_aliases
      (select_query [FunctionCall (Some "A") "f" [Column None None "x"];
                     Column None None "A"]) = Ok true.
Proof. repeat split; vm_compute; reflexivity. Qed.

(** X6: without a data source the validation raises the assertion of
    [get_data_source], whatever the expressions of the query, valid or
    not. *)
Lemma validate_aliases_unbound (q : Query) :
  data_source q = None → validate_aliases q = Raise UnboundDataSource.
Proof.
  intros H. unfold validate_aliases, get_data_source. rewrite H.
  by destruct (foldl _ _ _).
Qed.

(** ** Subdividing parts *)










(** All the scenarios of [test_subdivide_parts]. *)
Lemma _subdivide_parts_scenarios :
  _subdivide_parts ["(90,'2022-03-28')"] 2 = Some [["(90,'2022-03-28')"]; []]
  ∧ _subdivide_parts ["(90,'2022-03-28')"; "(90,'2022-03-21')"] 2
    = Some [["(90,'2022-03-28')"]; ["(90,'2022-03-21')"]]
  ∧ _subdivide_parts three_parts 2
    = Some [["(90,'2022-03-28')"; "(90,'2022-03-21')"];
            ["(30,'2022-03-28')"]]
  ∧ _subdivide_parts ["(90,'2022-03-28')"; "(90,'2022-03-21')";
                      "(30,'2022-03-28')"; "(30,'2022-03-21')"] 2
    = Some [["(90,'2022-03-28')"; "(90,'2022-03-21')"];
            ["(30,'2022-03-28')"; "(30,'2022-03-21')"]]
  ∧ _subdivide_parts six_parts 3 = Some six_parts_expected
  ∧ _subdivide_parts ["(90,'2022-03-07')"; "(90,'2022-03-28')";
                      "(90,'2022-03-21')"; "(30,'2022-03-28')";
                      "(90,'2022-03-14')"; "(30,'2022-03-21')"] 1
    = Some [["(90,'2022-03-28')"; "(30,'2022-03-28')"; "(90,'2022-03-21')";
             "(30,'2022-03-21')"; "(90,'2022-03-14')"; "(90,'2022-03-07')"]].
Proof. repeat split; vm_compute; reflexivity. Qed.




(** ** Time split *)

Lemma chained_le (lower upper : Z) (ws : list Window) :
  chained lower upper ws → lower ≤ upper.
Proof. induction 1; lia. Qed.

(** Consecutive windows cover the interval exactly. *)
Lemma chained_cover (lower upper : Z) (ws : list Window) :
  chained lower upper ws →
  ∀ t, (∃ w, w ∈ ws ∧ in_window t w) ↔ lower ≤ t < upper.
Proof.
  induction 1 as [|lo upper ws Hlt Hch IH]; intros t.
  - split; [|lia]. intros (w & Hw & _). by apply elem_of_nil in Hw.
  - pose proof (chained_le _ _ _ Hch) as Hle. split.
    + intros (w & Hw & Hin). apply elem_of_cons in Hw as [->|Hw].
      * unfold in_window in Hin. simpl in Hin. lia.
      * assert (lower ≤ t < lo) by (apply IH; by exists w). lia.
    + intros Ht. destruct (decide (lo ≤ t)) as [Hge|Hlo].
      * exists (lo, upper). split; [left|]. unfold in_window. simpl. lia.
      * destruct (proj2 (IH t)) as (w & Hw & Hin); [lia|].
        exists w. split; [by right|done].
Qed.

Lemma chained_below (lower upper : Z) (ws : list Window) :
  chained lower upper ws → ∀ w, w ∈ ws → lower ≤ w.1 ∧ w.1 < w.2 ∧ w.2 ≤ upper.
Proof.
  induction 1 as [|lo upper ws Hlt Hch IH]; intros w Hw.
  - by apply elem_of_nil in Hw.
  - pose proof (chained_le _ _ _ Hch).
    apply elem_of_cons in Hw as [->|Hw]; simpl; [lia|].
    specialize (IH w Hw). lia.
Qed.

(** Consecutive windows do not overlap: a later window lies entirely
    before an earlier one. *)
Lemma chained_disjoint (lower upper : Z) (ws : list Window) :
  chained lower upper ws →
  ∀ i j w1 w2, (i < j)%nat → ws !! i = Some w1 → ws !! j = Some w2 →
               w2.2 ≤ w1.1.
Proof.
  induction 1 as [|lo upper ws Hlt Hch IH]; intros i j w1 w2 Hij H1 H2.
  - done.
  - destruct j as [|j]; [lia|]. simpl in H2.
    destruct i as [|i]; simpl in H1.
    + injection H1 as <-. simpl.
      apply (chained_below _ _ _ Hch). by eapply list_elem_of_lookup_2.
    + eapply (IH i j); [lia|done..].
Qed.

(** One round of the loop. *)
Lemma time_split_loop_S (fuel : nat) (growth : Z) (limit : option nat)
    (runner : Window → RunnerError + ResultSet)
    (lower upper step : Z) (acc : ResultSet) :
  time_split_loop (S fuel) growth limit runner lower upper step acc
  = if bool_decide (upper ≤ lower) then Some (Succeeded acc, [])
    else
      let window := (Z.max lower (upper - step), upper) in
      match runner window with
      | inl TransportError => Some (FailedRetryable, [window])
      | inl EngineError => Some (Propagated EngineError, [window])
      | inr rows =>
          let acc' := acc ++ rows in
          if match limit with
             | Some n => bool_decide (n ≤ length acc')%nat
             | None => false
             end
          then Some (Succeeded acc', [window])
          else
            match time_split_loop fuel growth limit runner lower
                                  window.1 (growth * step) acc' with
            | Some (o, ws) => Some (o, window :: ws)
            | None => None
            end
      end.
Proof. reflexivity. Qed.

(** Whatever the runner and the limit, with a positive step and a growth
    factor of at least one the loop stops by itself within one round
    more than the width of the interval. *)
Lemma time_split_loop_terminates (growth : Z) (limit : option nat)
    (runner : Window → RunnerError + ResultSet) (lower : Z) :
  1 ≤ growth →
  ∀ fuel upper step acc,
    1 ≤ step → lower ≤ upper → (Z.to_nat (upper - lower) < fuel)%nat →
    is_Some (time_split_loop fuel growth limit runner lower upper step acc).
Proof.
  intros Hg. induction fuel as [|fuel IH]; intros upper step acc Hs Hle Hf;
    [lia|].
  rewrite time_split_loop_S. case_bool_decide as Hstop; [by eexists|].
  cbv zeta.
  destruct (runner (Z.max lower (upper - step), upper)) as [[|]|rows];
    [by eexists..|].
  destruct (match limit with
            | Some n => bool_decide (n ≤ length (acc ++ rows))%nat
            | None => false
            end); [by eexists|].
  cbn [fst].
  destruct (IH (Z.max lower (upper - step)) (growth * step) (acc ++ rows))
    as [[o ws] ->]; [nia|lia|lia|by eexists].
Qed.

(** With no limit and a runner that never fails, the loop succeeds and
    its windows are consecutive from [upper] down to [lower]. *)
Lemma time_split_loop_chained (growth : Z)
    (runner : Window → RunnerError + ResultSet) (lower : Z) :
  1 ≤ growth → (∀ w, ∃ rows, runner w = inr rows) →
  ∀ fuel upper step acc,
    1 ≤ step → lower ≤ upper → (Z.to_nat (upper - lower) < fuel)%nat →
    ∃ r ws,
      time_split_loop fuel growth None runner lower upper step acc
      = Some (Succeeded r, ws)
      ∧ chained lower upper ws.
Proof.
  intros Hg Hrun. induction fuel as [|fuel IH]; intros upper step acc Hs Hle Hf;
    [lia|].
  rewrite time_split_loop_S. case_bool_decide as Hstop.
  - assert (upper = lower) as -> by lia. eexists _, _.
    split; [reflexivity|constructor].
  - cbv zeta.
    destruct (Hrun (Z.max lower (upper - step), upper)) as [rows ->].
    cbn [fst].
    destruct (IH (Z.max lower (upper - step)) (growth * step) (acc ++ rows))
      as (r & ws & -> & Hch); [nia|lia|lia|].
    eexists _, _. split; [reflexivity|]. constructor; [lia|done].
Qed.

(** For every well-formed interval, positive step and growth factor of
    at least one, with no limit and a runner that never fails, the
    strategy succeeds and its windows partition the interval. *)
Lemma time_split_execute_partition (initial_step growth lower upper : Z)
    (runner : Window → RunnerError + ResultSet) :
  1 ≤ initial_step → 1 ≤ growth → lower < upper →
  (∀ w, ∃ rows, runner w = inr rows) →
  ∃ r ws,
    time_split_execute initial_step growth None (Some (lower, upper)) runner
    = Some (Succeeded r, ws)
    ∧ chained lower upper ws
    ∧ (∀ t, (∃ w, w ∈ ws ∧ in_window t w) ↔ lower ≤ t < upper)
    ∧ (∀ i j w1 w2, (i < j)%nat → ws !! i = Some w1 → ws !! j = Some w2 →
                    w2.2 ≤ w1.1).
Proof.
  intros Hs Hg Hlt Hrun. unfold time_split_execute.
  rewrite bool_decide_eq_true_2 by done.
  destruct (time_split_loop_chained growth runner lower Hg Hrun
              (S (Z.to_nat (upper - lower))) upper initial_step [])
    as (r & ws & -> & Hch); [done|lia|lia|].
  exists r, ws. split; [done|]. split; [done|].
  split; [by apply chained_cover|by eapply chained_disjoint].
Qed.




(** ** Column split *)

Lemma get_first_level_and_conditions_atom (c : Expression) :
  (∀ a lhs rhs, c ≠ FunctionCall a AND [lhs; rhs]) →
  get_first_level_and_conditions c = [c].
Proof.
  intros Hc. destruct c as [| | |a n ps|]; try done.
  destruct ps as [|l [|r [|? ?]]]; try done. simpl.
  destruct (String.eqb n AND) eqn:E; [|done].
  apply String.eqb_eq in E as ->. by destruct (Hc a l r).
Qed.

(** The flattening computes the top-level conditions. *)
Lemma elem_of_get_first_level_and_conditions (e c : Expression) :
  c ∈ get_first_level_and_conditions e ↔ top_level_condition c e.
Proof.
  split.
  - revert c.
    induction e as [| | |a n ps IH|] using Expression_ind'; intros c0 Hc;
      try (simpl in Hc; apply list_elem_of_singleton in Hc as ->;
           by constructor).
    destruct ps as [|l [|r [|x ps]]];
      try (simpl in Hc; apply list_elem_of_singleton in Hc as ->;
           by constructor).
    simpl in Hc. destruct (String.eqb n AND) eqn:E.
    + apply String.eqb_eq in E as ->.
      apply Forall_cons in IH as [IHl IH]. apply Forall_cons in IH as [IHr _].
      apply elem_of_app in Hc as [Hc|Hc].
      * apply top_level_left. by apply IHl.
      * apply top_level_right. by apply IHr.
    + apply list_elem_of_singleton in Hc as ->. constructor.
      intros a' l' r' [= -> -> -> ->]. by rewrite String.eqb_refl in E.
  - induction 1 as [Hc|a l r _ IH|a l r _ IH].
    + rewrite get_first_level_and_conditions_atom by done. left.
    + simpl. apply elem_of_app. by left.
    + simpl. apply elem_of_app. by right.
Qed.

Lemma is_column_spec (col : string) (e : Expression) :
  is_column col e = true ↔ ∃ al t, e = Column al t col.
Proof.
  split.
  - destruct e as [|al t c| | |]; try done. simpl.
    intros ->%String.eqb_eq. by exists al, t.
  - intros (al & t & ->). apply String.eqb_refl.
Qed.

Lemma is_eq_or_in_on_spec (col : string) (c : Expression) :
  is_eq_or_in_on col c = true ↔ eq_or_in_comparison col c.
Proof.
  split.
  - destruct c as [| | |a n ps|]; try done.
    destruct ps as [|lhs [|rhs [|? ?]]]; try done. simpl.
    rewrite orb_true_iff, !andb_true_iff, orb_true_iff, !String.eqb_eq,
      !is_column_spec.
    intros [[-> [(al & t & ->)|(al & t & ->)]]|[-> (al & t & ->)]];
      constructor.
  - intros [a al t other|a al t other|a al t other]; simpl;
      rewrite ?String.eqb_refl, ?orb_true_r; done.
Qed.

(** The boolean check of precondition 3 against its wording. *)
Lemma has_eq_or_in_spec (col : string) (q : Query) :
  existsb (is_eq_or_in_on col)
          (match condition q with
           | Some c => get_first_level_and_conditions c
           | None => []
           end) = true
  ↔ ∃ cond c, condition q = Some cond ∧ top_level_condition c cond
              ∧ eq_or_in_comparison col c.
Proof.
  rewrite existsb_exists. split.
  - intros (c & Hc & Hcmp). destruct (condition q) as [cond|]; [|done].
    exists cond, c. split; [done|]. split.
    + apply elem_of_get_first_level_and_conditions. by apply list_elem_of_In.
    + by apply is_eq_or_in_on_spec.
  - intros (cond & c & -> & Htop & Hcmp). exists c. split.
    + apply list_elem_of_In. by apply elem_of_get_first_level_and_conditions.
    + by apply is_eq_or_in_on_spec.
Qed.

Lemma get_first_level_and_conditions_filter (id project : string)
    (rows : ResultSet) (old : option Expression) :
  get_first_level_and_conditions
    (match old with
     | Some c => binary_condition None AND (in_returned_pairs id project rows) c
     | None => in_returned_pairs id project rows
     end)
  = in_returned_pairs id project rows
    :: match old with
       | Some c => get_first_level_and_conditions c
       | None => []
       end.
Proof. by destruct old. Qed.

(** C6: the column split declines, issuing no sub-query, when a top-level
    condition compares the identifier column with [=] or [IN], when there
    is a [GROUP BY], when the query selects no more than the minimum
    number of columns, or when it does not select the identifier and the
    project columns.  Otherwise it proceeds with the split: the first
    sub-query is the query narrowed to the identifier, project and time
    columns and what the ordering names, everything else kept; when it
    fails the failure is the outcome, when it returns no row the result
    is empty and nothing else is issued; else the second sub-query is the
    query with one more top-level condition, restricting the pair
    (identifier, project) to the pairs the first sub-query returned, and
    its result is the result of the strategy. *)
Theorem column_split_declines_or_proceeds (min_cols : nat)
    (s : ColumnSplitQueryStrategy) (q : Query)
    (runner : Query → RunnerError + ResultSet) :
  ((∃ cond c, condition q = Some cond ∧ top_level_condition c cond
              ∧ eq_or_in_comparison (id_column s) c)
   ∨ groupby q ≠ []
   ∨ (length (selected_columns q) ≤ min_cols)%nat
   ∨ selects q (id_column s) = false
   ∨ selects q (project_column s) = false
   → column_split_execute min_cols s q runner = (Declined, []))
  ∧ ((min_cols < length (selected_columns q))%nat →
     selects q (id_column s) = true → selects q (project_column s) = true →
     groupby q = [] →
     (∀ cond c, condition q = Some cond → top_level_condition c cond →
                ¬ eq_or_in_comparison (id_column s) c) →
     ∃ first,
       selected_columns first
       = [bare_column (id_column s); bare_column (project_column s);
          bare_column (timestamp_column s)]
         ++ map (λ o, {| name := None; expression := ob_expression o |})
                (order_by q)
         ++ match limitby q with
            | Some (_, col) => [bare_column col]
            | None => []
            end
       ∧ condition first = condition q
       ∧ besides_select_and_condition first = besides_select_and_condition q
       ∧ match runner first with
         | inl err =>
             column_split_execute min_cols s q runner
             = (outcome_of_error err, [first])
         | inr [] =>
             column_split_execute min_cols s q runner
             = (Succeeded [], [first])
         | inr rows =>
             ∃ second filter,
               filter
               = in_returned_pairs (id_column s) (project_column s) rows
               ∧ selected_columns second = selected_columns q
               ∧ match condition second with
                 | Some c =>
                     get_first_level_and_conditions c
                     = filter
                       :: match condition q with
                          | Some old => get_first_level_and_conditions old
                          | None => []
                          end
                 | None => False
                 end
               ∧ besides_select_and_condition second
                 = besides_select_and_condition q
               ∧ column_split_execute min_cols s q runner
                 = (match runner second with
                    | inl err => outcome_of_error err
                    | inr result => Succeeded result
                    end, [first; second])
         end).
Proof.
  split.
  - intros H. unfold column_split_execute.
    assert (column_split_applicable min_cols s q = false) as ->; [|done].
    unfold column_split_applicable.
    destruct H as [H|[H|[H|[H|H]]]].
    + apply has_eq_or_in_spec in H. rewrite H. simpl.
      by rewrite andb_false_r.
    + rewrite (bool_decide_eq_false_2 _ H). by rewrite andb_false_r.
    + rewrite bool_decide_eq_false_2 by lia. done.
    + rewrite H. simpl. by rewrite andb_false_r.
    + rewrite H. by rewrite !andb_false_r.
  - intros Hn Hid Hproj Hgb Hcond. unfold column_split_execute.
    assert (column_split_applicable min_cols s q = true) as ->.
    { unfold column_split_applicable.
      rewrite bool_decide_eq_true_2 by done. rewrite Hid, Hproj.
      rewrite (bool_decide_eq_true_2 _ Hgb). simpl.
      rewrite andb_true_r. apply negb_true_iff, not_true_is_false.
      intros H. apply has_eq_or_in_spec in H as (cond & c & ? & ? & ?).
      by eapply Hcond. }
    exists (minimal_query s q).
    split; [reflexivity|]. split; [reflexivity|]. split; [reflexivity|].
    cbv zeta.
    destruct (runner (minimal_query s q)) as [err|[|row rows]]; [done..|].
    exists (add_condition_to_ast (id_filter s (row :: rows)) q),
           (id_filter s (row :: rows)).
    split; [reflexivity|]. split; [by unfold add_condition_to_ast;
                                    destruct (condition q)|].
    split.
    { pose proof (get_first_level_and_conditions_filter
                    (id_column s) (project_column s) (row :: rows)
                    (condition q)) as Hflat.
      unfold add_condition_to_ast. by destruct (condition q). }
    split; [by unfold add_condition_to_ast; destruct (condition q)|].
    by destruct (runner _).
Qed.

(** The six scenarios of [column_split_tests], for any minimum between
    the four columns that are too few and the seven that are enough, and
    the equality written with the identifier on the right. *)
Lemma column_split_scenarios (min_cols : nat) :
  (4 ≤ min_cols < 7)%nat →
  let run := column_split_execute min_cols events_splitter in
  run query_with_groupby one_row_runner = (Declined, [])
  ∧ (∃ r qs, run query_valid one_row_runner = (Succeeded r, qs))
  ∧ run query_few_columns one_row_runner = (Declined, [])
  ∧ run query_eq_event_id one_row_runner = (Declined, [])
  ∧ run query_in_event_id one_row_runner = (Declined, [])
  ∧ (∃ r qs, run query_gt_event_id one_row_runner = (Succeeded r, qs))
  ∧ run query_eq_reversed one_row_runner = (Declined, []).
Proof.
  intros H.
  assert (min_cols = 4 ∨ min_cols = 5 ∨ min_cols = 6)%nat
    as [-> | [-> | ->]] by lia;
    (repeat split; try (by vm_compute); by eexists _, _).
Qed.

Lemma column_split_declines_or_proceeds_witness :
  column_split_execute 6 events_splitter query_eq_event_id one_row_runner
  = (Declined, [])
  ∧ ∃ first,
      selected_columns first
      = [bare_column "event_id"; bare_column "project_id";
         bare_column "timestamp"]
      ∧ condition first = condition query_gt_event_id
      ∧ ∃ second,
          selected_columns second = selected_columns query_gt_event_id
          ∧ column_split_execute 6 events_splitter query_gt_event_id
                                 one_row_runner
            = (match one_row_runner second with
               | inl err => outcome_of_error err
               | inr result => Succeeded result
               end, [first; second]).
Proof.
  split.
  - apply (proj1 (column_split_declines_or_proceeds 6 events_splitter
                    query_eq_event_id one_row_runner)).
    left. apply has_eq_or_in_spec. reflexivity.
  - destruct (proj2 (column_split_declines_or_proceeds 6 events_splitter
                       query_gt_event_id one_row_runner))
      as (first & Hsel & Hcond & _ & Hrun).
    + simpl. lia.
    + reflexivity.
    + reflexivity.
    + reflexivity.
    + intros cond c Hcond Htop Hcmp.
      assert (existsb (is_eq_or_in_on (id_column events_splitter))
                (match condition query_gt_event_id with
                 | Some c => get_first_level_and_conditions c
                 | None => []
                 end) = true) as Hex
        by (apply has_eq_or_in_spec; by exists cond, c).
      discriminate Hex.
    + exists first. split; [exact Hsel|]. split; [exact Hcond|].
      simpl in Hrun. destruct Hrun as (second & filter & _ & Hsel2 & _ & _ & H).
      exists second. split; [exact Hsel2|exact H].
Defined.

(** * Further properties of the query object *)

(** X1: [transform_expressions] keeps the shape of the query: the names
    of the selected columns, the directions of the order-by clauses, the
    number of group-by expressions and the presence of the optional
    clauses are unchanged, and the traversal of the result yields the
    sub-expressions of the transformed roots, root by root. *)
Theorem transform_expressions_shape
    (func : Expression → Expression) (q : Query) :
  let q' := transform_expressions func q in
  map name (selected_columns q') = map name (selected_columns q)
  ∧ map direction (order_by q') = map direction (order_by q)
  ∧ length (groupby q') = length (groupby q)
  ∧ (array_join q' = None ↔ array_join q = None)
  ∧ (condition q' = None ↔ condition q = None)
  ∧ (having q' = None ↔ having q = None)
  ∧ get_all_expressions q' = flat_map iter (map (transform func) (roots q)).
Proof.
  simpl. repeat split.
  - by rewrite map_map.
  - by rewrite map_map.
  - by rewrite length_map.
  - by destruct (array_join q).
  - by destruct (array_join q).
  - by destruct (condition q).
  - by destruct (condition q).
  - by destruct (having q).
  - by destruct (having q).
  - by rewrite get_all_expressions_roots, transform_expressions_roots.
Qed.

Lemma option_list_fmap {A B} (f : A → B) (o : option A) :
  option_list (f <$> o) = map f (option_list o).
Proof. by destruct o. Qed.

(** X2: the visitor-based [transform] hands every root of the traversal
    and the [prewhere] clause to the visitor, keeps the names of the
    selected columns and the directions of the order-by clauses, and
    leaves the data source, the entity, the limits and the flags as they
    were. *)
Theorem transform_visitor_all_roots
    (visitor : ExpressionVisitor Expression) (q : Query) :
  let q' := transform_visitor visitor q in
  roots q' = map (accept visitor) (roots q)
  ∧ prewhere q' = accept visitor <$> prewhere q
  ∧ map name (selected_columns q') = map name (selected_columns q)
  ∧ map direction (order_by q') = map direction (order_by q)
  ∧ (data_source q', entity q', limitby q', sample q', limit q', offset q',
     totals q', granularity q', final q')
    = (data_source q, entity q, limitby q, sample q, limit q, offset q,
       totals q, granularity q, final q).
Proof.
  simpl. split; [|split; [done|split; [|split; [|done]]]].
  - unfold roots, transform_visitor. simpl.
    rewrite !map_app, !map_map, !option_list_fmap. done.
  - by rewrite map_map.
  - by rewrite map_map.
Qed.

Lemma accept_rebuild_visitor (e : Expression) : accept rebuild_visitor e = e.
Proof. by destruct e. Qed.

(** X3: transforming with the visitor that rebuilds each node as it is
    gives the query back unchanged. *)
Theorem transform_visitor_rebuild (q : Query) :
  transform_visitor rebuild_visitor q = q.
Proof.
  destruct q as [b f ds sel aj cond pw gb hv ob en lb sa li off tot gr].
  unfold transform_visitor, with_expressions. simpl. f_equal.
  - induction sel as [|[n e] sel IH]; simpl; [done|].
    by rewrite IH, accept_rebuild_visitor.
  - destruct aj; simpl; by rewrite ?accept_rebuild_visitor.
  - destruct cond; simpl; by rewrite ?accept_rebuild_visitor.
  - destruct pw; simpl; by rewrite ?accept_rebuild_visitor.
  - induction gb as [|e gb IH]; simpl; [done|].
    by rewrite IH, accept_rebuild_visitor.
  - destruct hv; simpl; by rewrite ?accept_rebuild_visitor.
  - induction ob as [|[d e] ob IH]; simpl; [done|].
    by rewrite IH, accept_rebuild_visitor.
Qed.

Lemma elem_of_columns_of (e c : Expression) :
  c ∈ columns_of e ↔ c ∈ iter e ∧ type_of c = TColumn.
Proof.
  unfold columns_of, isinstance.
  rewrite elem_of_list_to_set, list_elem_of_filter, bool_decide_eq_true.
  tauto.
Qed.

Lemma elem_of_condition_columns (q : Query) (c : Expression) :
  c ∈ get_columns_referenced_in_conditions_ast q
  ↔ ∃ cond, condition q = Some cond ∧ c ∈ iter cond ∧ type_of c = TColumn.
Proof.
  unfold get_columns_referenced_in_conditions_ast.
  rewrite elem_of_get_all_ast_referenced_expressions.
  destruct (condition q) as [cond|].
  - split.
    + intros (e & He & ? & ?). apply list_elem_of_singleton in He as ->.
      by exists cond.
    + intros (cond' & [= <-] & ? & ?). exists cond. split; [left|done].
  - split.
    + intros (e & He & _). by apply elem_of_nil in He.
    + by intros (cond' & ? & _).
Qed.

(** X4: [add_condition_to_ast] only adds to the columns referenced in
    the conditions: afterwards they are the columns of the added
    condition together with those referenced before. *)
Theorem add_condition_to_ast_columns (c : Expression) (q : Query) :
  get_columns_referenced_in_conditions_ast (add_condition_to_ast c q)
  = columns_of c ∪ get_columns_referenced_in_conditions_ast q.
Proof.
  apply set_eq. intros x.
  rewrite elem_of_union, elem_of_columns_of, !elem_of_condition_columns.
  unfold add_condition_to_ast. destruct (condition q) as [old|] eqn:Hq; simpl.
  - split.
    + intros (cond & [= <-] & Hx & Ht). simpl in Hx.
      apply elem_of_cons in Hx as [->|Hx]; [done|].
      rewrite app_nil_r in Hx. apply elem_of_app in Hx as [Hx|Hx].
      * by left.
      * right. by exists old.
    + intros [[Hx Ht]|(cond & [= <-] & Hx & Ht)]; eexists;
        (split; [reflexivity|]); (split; [|done]); simpl; right;
        rewrite app_nil_r; apply elem_of_app; [by left|by right].
  - split.
    + intros (cond & [= <-] & Hx & Ht). by left.
    + intros [[Hx Ht]|(cond & [=] & _)]. by exists c.
Qed.

(** X5: the columns referenced in the conditions are among the columns
    referenced by the whole query. *)
Theorem condition_columns_subset (q : Query) :
  get_columns_referenced_in_conditions_ast q
  ⊆ get_all_ast_referenced_columns q.
Proof.
  intros c. rewrite elem_of_condition_columns.
  intros (cond & Hcond & Hc & Ht).
  apply elem_of_referenced_in_query. split; [|done].
  apply elem_of_get_all_expressions. exists cond. split; [|done].
  unfold roots. rewrite Hcond. simpl.
  apply elem_of_app. right. apply elem_of_app. right. left.
Qed.

Lemma validate_aliases_unbound_witness :
  data_source shared_column_query = None
  ∧ validate_aliases shared_column_query = Raise UnboundDataSource.
Proof.
  split; [reflexivity|].
  apply (validate_aliases_unbound shared_column_query). reflexivity.
Defined.

(** With a data source bound, the result of the validation in terms of
    the two sets the loop has built. *)
Lemma validate_aliases_sets (q : Query) (ds : RelationalSource) :
  data_source q = Some ds →
  ∃ D R : gset string,
    validate_aliases q
    = Ok (bool_decide
            (R ∖ (D ∪ list_to_set (map flattened (get_columns ds))) = ∅))
    ∧ (∀ s, s ∈ D ↔ ∃ e, e ∈ get_all_expressions q ∧ declares e s)
    ∧ (∀ s, s ∈ R ↔ ∃ e, e ∈ get_all_expressions q ∧ references e s).
Proof.
  intros Hds. unfold validate_aliases, get_data_source. rewrite Hds.
  pose proof (validate_aliases_loop (get_all_expressions q) ∅ ∅) as Hloop.
  destruct (foldl validate_aliases_step (∅, ∅) (get_all_expressions q))
    as [D R].
  exists D, R. split; [done|]. simpl in Hloop.
  split; intros s; destruct (Hloop s) as [HD HR].
  - rewrite HD. split; [|by right].
    intros [H0|?]; [by apply elem_of_empty in H0|done].
  - rewrite HR. split; [|by right].
    intros [H0|?]; [by apply elem_of_empty in H0|done].
Qed.

(** X7: a query that validates against a data source still validates
    against any data source declaring at least the same columns. *)
Theorem validate_aliases_more_columns (q : Query) (ds ds' : RelationalSource) :
  data_source q = Some ds →
  (∀ c, c ∈ get_columns ds → c ∈ get_columns ds') →
  validate_aliases q = Ok true →
  validate_aliases (set_data_source ds' q) = Ok true.
Proof.
  intros Hds Hsub Hvalid.
  destruct (validate_aliases_sets q ds Hds) as (D & R & Hq & HD & HR).
  destruct (validate_aliases_sets (set_data_source ds' q) ds' eq_refl)
    as (D' & R' & Hq' & HD' & HR').
  rewrite Hq'. rewrite Hq in Hvalid. injection Hvalid as Hvalid.
  apply bool_decide_eq_true in Hvalid. f_equal. apply bool_decide_eq_true.
  assert (D' = D) as -> by (apply set_eq; intros s; by rewrite HD, HD').
  assert (R' = R) as -> by (apply set_eq; intros s; by rewrite HR, HR').
  assert (list_to_set (map flattened (get_columns ds))
          ⊆@{gset string} list_to_set (map flattened (get_columns ds')))
    as Hcols.
  { intros s. rewrite !elem_of_list_to_set, !list_elem_of_fmap.
    intros (c & -> & Hc). exists c. split; [done|]. by apply Hsub. }
  apply set_eq. intros s. split; [|by intros H0; apply elem_of_empty in H0].
  intros [Hr Hn]%elem_of_difference.
  assert (s ∈ R ∖ (D ∪ list_to_set (map flattened (get_columns ds))))
    as Hin.
  { apply elem_of_difference. split; [done|].
    intros [?|?]%elem_of_union; apply Hn, elem_of_union; [by left|right].
    by apply Hcols. }
  by rewrite Hvalid in Hin.
Qed.

Lemma validate_aliases_more_columns_witness :
  validate_aliases
    (set_data_source source_xy (select_query [Column None None "x"]))
  = Ok true.
Proof.
  apply (validate_aliases_more_columns
           (select_query [Column None None "x"]) source_x source_xy).
  - reflexivity.
  - intros c Hc. apply list_elem_of_singleton in Hc as ->. left.
  - vm_compute. reflexivity.
Defined.

(** X8: the validation depends on the expressions of the query only as
    a set: two queries over the same data source whose traversals yield
    the same expressions, in whatever order and multiplicity, validate
    alike; in particular the order of the select list does not matter. *)
Theorem validate_aliases_same_expressions (q1 q2 : Query) :
  data_source q1 = data_source q2 →
  (∀ e, e ∈ get_all_expressions q1 ↔ e ∈ get_all_expressions q2) →
  validate_aliases q1 = validate_aliases q2.
Proof.
  intros Hds Hsame. destruct (data_source q1) as [ds|] eqn:H1.
  - symmetry in Hds.
    destruct (validate_aliases_sets q1 ds H1) as (D1 & R1 & -> & HD1 & HR1).
    destruct (validate_aliases_sets q2 ds Hds) as (D2 & R2 & -> & HD2 & HR2).
    assert (D1 = D2) as ->.
    { apply set_eq. intros s. rewrite HD1, HD2.
      split; intros (e & He & ?); exists e; (split; [by apply Hsame|done]). }
    assert (R1 = R2) as ->; [|done].
    apply set_eq. intros s. rewrite HR1, HR2.
    split; intros (e & He & ?); exists e; (split; [by apply Hsame|done]).
  - symmetry in Hds.
    by rewrite (validate_aliases_unbound q1 H1),
               (validate_aliases_unbound q2 Hds).
Qed.

Lemma validate_aliases_same_expressions_witness :
  validate_aliases
    (select_query [Column None None "x"; Column None None "y"])
  = validate_aliases
      (select_query [Column None None "y"; Column None None "x";
                     Column None None "y"]).
Proof.
  apply validate_aliases_same_expressions.
  - reflexivity.
  - intros e.
    change (e ∈ [Column None None "x"; Column None None "y"]
            ↔ e ∈ [Column None None "y"; Column None None "x";
                   Column None None "y"]).
    rewrite !elem_of_cons. tauto.
Defined.

(** X9: the [prewhere] clause takes no part in the traversal: whatever
    expression is set there, the expressions yielded, the referenced
    columns and the result of the validation are those of the query
    without it, so that a column known to nobody passes the validation
    when it occurs in [prewhere] only. *)
Theorem prewhere_not_traversed (p : option Expression) (q : Query) :
  get_all_expressions (set_prewhere_ast_condition p q)
  = get_all_expressions q
  ∧ get_all_ast_referenced_columns (set_prewhere_ast_condition p q)
    = get_all_ast_referenced_columns q
  ∧ validate_aliases (set_prewhere_ast_condition p q) = validate_aliases q.
Proof. done. Qed.

(** X10: a query built without any clause yields no expression and
    references no column; it validates against every data source and
    fails only for want of one. *)
Theorem bare_query_validates (body : gmap string Any) :
  (∀ ds, get_all_expressions (bare_query body ds) = []
         ∧ get_all_ast_referenced_columns (bare_query body ds) = ∅
         ∧ get_columns_referenced_in_conditions_ast (bare_query body ds) = ∅)
  ∧ (∀ ds, validate_aliases (bare_query body (Some ds)) = Ok true)
  ∧ validate_aliases (bare_query body None) = Raise UnboundDataSource.
Proof.
  split; [done|]. split; [|done].
  intros ds. unfold validate_aliases. simpl. f_equal.
  apply bool_decide_eq_true. apply set_eq. intros s.
  rewrite elem_of_difference. split; [intros [H0 _]|intros H0];
    by apply elem_of_empty in H0.
Qed.

(** * Properties of the tick consumer *)

Module ConsumerFacts.
Import Consumer.

Lemma lookup_forget (partitions : list Partition)
    (m : gmap Partition MessageDetails) (p : Partition) :
  forget partitions m !! p = if decide (p ∈ partitions) then None else m !! p.
Proof.
  unfold forget. revert m.
  induction partitions as [|x l IH]; intros m.
  - destruct (decide (p ∈ [])) as [H|_]; [by apply elem_of_nil in H|done].
  - cbn [foldl]. rewrite IH.
    destruct (decide (p ∈ l)) as [Hl|Hl], (decide (p ∈ x :: l)) as [Hxl|Hxl];
      try done.
    + destruct Hxl. by right.
    + apply elem_of_cons in Hxl as [->|?]; [|done].
      apply lookup_delete_eq.
    + apply lookup_delete_ne. intros ->. apply Hxl. left.
Qed.

Section Facts.

Variable valid_range : Z → Z → bool.
Variable tick_time_shift : Tick → Z → Tick.
Context {A : Type}.

(** X11: a tick is only returned for a partition that has a previous
    message; it carries the offset of that message and the timestamp of
    the current one, spans from the one to the other, is not shorter
    than [min_interval], and the current message becomes the previous
    one. *)
Theorem poll_tick_sound (self self' : TickConsumer) (message : Message A)
    (tick : Message Tick) :
  poll valid_range tick_time_shift self (Some message) = Return (Some tick, self') →
  ∃ previous,
    previous_messages self !! partition message = Some previous
    ∧ partition tick = partition message
    ∧ message_offset tick = offset previous
    ∧ message_timestamp tick = message_timestamp message
    ∧ payload tick
      = tick_time_shift
          {| tick_partition := None;
             offsets := {| lower := offset previous;
                           upper := message_offset message |};
             timestamps := {| lower := timestamp previous;
                              upper := message_timestamp message |} |}
          (time_shift self)
    ∧ valid_range (timestamp previous) (message_timestamp message) = true
    ∧ valid_range (offset previous) (message_offset message) = true
    ∧ (∀ m, min_interval self = Some m →
            m ≤ message_timestamp message - timestamp previous)
    ∧ previous_messages self' !! partition message
      = Some {| offset := message_offset message;
                timestamp := message_timestamp message |}
    ∧ (∀ p, p ≠ partition message →
            previous_messages self' !! p = previous_messages self !! p).
Proof.
  unfold Consumer.poll.
  destruct (previous_messages self !! partition message) as [previous|];
    [|done].
  destruct (valid_range (timestamp previous) (message_timestamp message))
    eqn:Hts; simpl; [|done].
  destruct (min_interval self) as [m|] eqn:Hmin.
  - case_bool_decide as Hshort; [done|].
    destruct (valid_range (offset previous) (message_offset message))
      eqn:Hoff; simpl; [|done].
    intros [= <- <-]. exists previous. simpl.
    repeat split; try done.
    + intros m' [= <-]. lia.
    + apply lookup_insert_eq.
    + intros p Hp. by apply lookup_insert_ne.
  - destruct (valid_range (offset previous) (message_offset message))
      eqn:Hoff; simpl; [|done].
    intros [= <- <-]. exists previous. simpl.
    repeat split; try done.
    + apply lookup_insert_eq.
    + intros p Hp. by apply lookup_insert_ne.
Qed.

(** X13: a message that yields no tick although its partition has a
    previous message is not recorded: the consumer is left as it was,
    and the message was out of order or closer than [min_interval] to
    the previous one. *)
Theorem poll_dropped_keeps_previous (self self' : TickConsumer)
    (message : Message A) (previous : MessageDetails) :
  previous_messages self !! partition message = Some previous →
  poll valid_range tick_time_shift self (Some message) = Return (None, self') →
  self' = self
  ∧ (valid_range (timestamp previous) (message_timestamp message) = false
     ∨ ∃ m, min_interval self = Some m
            ∧ message_timestamp message - timestamp previous < m).
Proof.
  unfold Consumer.poll. intros ->.
  destruct (valid_range (timestamp previous) (message_timestamp message))
    eqn:Hts; simpl; [|intros [= <-]; by split; [|left]].
  destruct (min_interval self) as [m|] eqn:Hmin.
  - case_bool_decide as Hshort.
    + intros [= <-]. split; [done|]. right. by exists m.
    + by destruct (valid_range (offset previous) (message_offset message)).
  - by destruct (valid_range (offset previous) (message_offset message)).
Qed.

(** One call of [poll] leaves the other partitions alone; on the
    partition of the message, either nothing changes or the message is
    recorded. *)
Lemma poll_step (self self' : TickConsumer) (message : Message A)
    (result : option (Message Tick)) :
  poll valid_range tick_time_shift self (Some message) = Return (result, self') →
  (∀ p, p ≠ partition message →
        previous_messages self' !! p = previous_messages self !! p)
  ∧ ((result = None ∧ self' = self
      ∧ is_Some (previous_messages self !! partition message))
     ∨ (previous_messages self' !! partition message
        = Some {| offset := message_offset message;
                  timestamp := message_timestamp message |}
        ∧ match result with
          | Some tick =>
              ∃ previous,
                previous_messages self !! partition message = Some previous
                ∧ message_offset tick = offset previous
          | None => previous_messages self !! partition message = None
          end)).
Proof.
  unfold Consumer.poll.
  destruct (previous_messages self !! partition message) as [previous|]
    eqn:Hprev.
  - destruct (valid_range (timestamp previous) (message_timestamp message));
      simpl; [|intros [= <- <-]; split; [done|left; by repeat split]].
    destruct (match min_interval self with
              | Some m =>
                  bool_decide
                    (message_timestamp message - timestamp previous < m)
              | None => false
              end);
      [intros [= <- <-]; split; [done|left; by repeat split]|].
    destruct (valid_range (offset previous) (message_offset message));
      simpl; [|done].
    intros [= <- <-]. simpl. split.
    + intros p Hp. by apply lookup_insert_ne.
    + right. split; [apply lookup_insert_eq|]. by exists previous.
  - intros [= <- <-]. simpl. split.
    + intros p Hp. by apply lookup_insert_ne.
    + right. split; [apply lookup_insert_eq|done].
Qed.

(** X12: from a fresh consumer, the first message of a partition yields
    no tick; the next message of that partition, when it forms valid
    intervals with the first and no minimum is set, yields the tick
    between the two, carrying the offset of the first. *)
Theorem two_messages_one_tick (shift : option Z) (m1 m2 : Message A) :
  partition m2 = partition m1 →
  valid_range (message_timestamp m1) (message_timestamp m2) = true →
  valid_range (message_offset m1) (message_offset m2) = true →
  ∃ self1 self2 tick,
    poll valid_range tick_time_shift (TickConsumer_init shift None) (Some m1)
    = Return (None, self1)
    ∧ poll valid_range tick_time_shift self1 (Some m2)
      = Return (Some tick, self2)
    ∧ partition tick = partition m1
    ∧ message_offset tick = message_offset m1
    ∧ message_timestamp tick = message_timestamp m2
    ∧ payload tick
      = tick_time_shift
          {| tick_partition := None;
             offsets := {| lower := message_offset m1;
                           upper := message_offset m2 |};
             timestamps := {| lower := message_timestamp m1;
                              upper := message_timestamp m2 |} |}
          (default 0 shift)
    ∧ previous_messages self2 !! partition m1
      = Some {| offset := message_offset m2;
                timestamp := message_timestamp m2 |}.
Proof.
  intros Hp Hts Hoff. eexists _, _, _. split; [reflexivity|].
  unfold Consumer.poll. simpl. rewrite Hp, lookup_insert_eq. simpl.
  rewrite Hts, Hoff. simpl. split; [reflexivity|]. simpl.
  repeat split; try done. by rewrite insert_insert_eq, lookup_insert_eq.
Qed.

(** X14: along a run of [poll], the ticks returned for a partition that
    had a previous message are contiguous: the first carries the offset
    of that previous message and each following one the offset of the
    message that produced the tick before it; messages dropped in
    between do not break the chain. *)
Theorem ticks_contiguous (p : Partition) (messages : list (Message A)) :
  ∀ (self self' : TickConsumer) (previous : MessageDetails)
    (ticks : list (Message A * Message Tick)),
    previous_messages self !! p = Some previous →
    poll_all valid_range tick_time_shift self messages
    = Return (ticks, self') →
    contiguous (offset previous)
               (filter (λ t, partition t.1 = p) ticks)
    ∧ ∃ previous', previous_messages self' !! p = Some previous'
                   ∧ offset previous'
                     = last_offset
                         (filter (λ t, partition t.1 = p) ticks)
                         (offset previous).
Proof.
  induction messages as [|message rest IH];
    intros self self' previous ticks Hprev Hrun.
  - injection Hrun as <- <-. simpl. split; [done|]. by exists previous.
  - cbn [Consumer.poll_all] in Hrun.
    destruct (poll valid_range tick_time_shift self (Some message))
      as [[result self1]|] eqn:Hpoll; [|done].
    destruct (Consumer.poll_all valid_range tick_time_shift self1 rest)
      as [[ticks' self2]|] eqn:Hrest; [|done].
    injection Hrun as <- <-.
    destruct (poll_step _ _ _ _ Hpoll) as [Hother Hsame].
    destruct (decide (partition message = p)) as [<-|Hne].
    + destruct Hsame as [(-> & -> & _)|[Hrec Hres]].
      * by apply (IH _ _ _ _ Hprev Hrest).
      * destruct (IH _ _ _ _ Hrec Hrest) as [Hcont Hlast]. simpl in *.
        destruct result as [tick|].
        -- destruct Hres as (previous0 & Hprev0 & Hoff).
           rewrite Hprev in Hprev0. injection Hprev0 as <-.
           rewrite filter_cons_True by done. simpl. by repeat split.
        -- congruence.
    + assert (previous_messages self1 !! p = Some previous) as Hprev1
        by (rewrite Hother; done).
      destruct (IH _ _ _ _ Hprev1 Hrest) as [Hcont Hlast].
      destruct result as [tick|]; [|done].
      by rewrite filter_cons_False by done.
Qed.

(** X15: once [poll] has recorded a message, [tell] reports the offset
    of that message for its partition when the wrapped consumer has it
    assigned, instead of the wrapped consumer's own position; it reports
    nothing for partitions the wrapped consumer does not tell. *)
Theorem tell_after_poll (self self' : TickConsumer) (message : Message A)
    (result : option (Message Tick)) (inner_tell : gmap Partition Z) :
  poll valid_range tick_time_shift self (Some message)
  = Return (result, self') →
  previous_messages self !! partition message = None ∨ is_Some result →
  (∀ inner_offset, inner_tell !! partition message = Some inner_offset →
     tell self' inner_tell !! partition message
     = Some (message_offset message))
  ∧ (∀ p, inner_tell !! p = None → tell self' inner_tell !! p = None)
  ∧ (∀ p inner_offset, previous_messages self' !! p = None →
       inner_tell !! p = Some inner_offset →
       tell self' inner_tell !! p = Some inner_offset).
Proof.
  intros Hpoll Hrecorded. unfold tell.
  destruct (poll_step _ _ _ _ Hpoll) as [_ Hsame].
  assert (previous_messages self' !! partition message
          = Some {| offset := message_offset message;
                    timestamp := message_timestamp message |}) as Hrec.
  { destruct Hsame as [(-> & _ & [d Hd])|[Hrec _]]; [|done].
    destruct Hrecorded as [Hnone|[? ?]]; congruence. }
  split; [|split].
  - intros inner_offset Hin. by rewrite map_lookup_imap, Hin, Hrec.
  - intros p Hin. by rewrite map_lookup_imap, Hin.
  - intros p inner_offset Hnone Hin. by rewrite map_lookup_imap, Hin, Hnone.
Qed.

End Facts.

(** X16: [seek] raises [ConsumerError] exactly when some partition to
    seek is not among those the wrapped consumer tells. *)
Theorem seek_unassigned (self : TickConsumer)
    (inner_tell offsets : gmap Partition Z) :
  (∃ p, is_Some (offsets !! p) ∧ inner_tell !! p = None)
  ↔ seek self inner_tell offsets
    = Throw (ConsumerError "cannot seek on unassigned partitions").
Proof.
  unfold seek. case_bool_decide as Hdiff.
  - split; [done|]. intros _.
    apply set_choose_L in Hdiff as [p Hp].
    apply elem_of_difference in Hp as [Hin Hout].
    exists p. split; [by apply elem_of_dom|by apply not_elem_of_dom].
  - split; [|done]. intros (p & Hin & Hout).
    assert (p ∈ dom offsets ∖ dom inner_tell) as Hp.
    { apply elem_of_difference.
      split; [by apply elem_of_dom|by apply not_elem_of_dom]. }
    rewrite Hdiff in Hp. by apply elem_of_empty in Hp.
Qed.

(** X17: a [seek] that succeeds forgets the previous message of exactly
    the partitions sought, so that [tell] reports for them the position
    of the wrapped consumer again; the other partitions, the time shift
    and the minimum interval are kept. *)
Theorem seek_forgets (self self' : TickConsumer)
    (inner_tell offsets : gmap Partition Z) :
  seek self inner_tell offsets = Return self' →
  (∀ p, is_Some (offsets !! p) →
        is_Some (inner_tell !! p)
        ∧ previous_messages self' !! p = None
        ∧ tell self' inner_tell !! p = inner_tell !! p)
  ∧ (∀ p, offsets !! p = None →
          previous_messages self' !! p = previous_messages self !! p)
  ∧ time_shift self' = time_shift self
  ∧ min_interval self' = min_interval self.
Proof.
  unfold seek. case_bool_decide as Hdiff; [done|]. intros [= <-]. simpl.
  split; [|split; [|done]].
  - intros p Hin.
    assert (is_Some (inner_tell !! p)) as [o Ho].
    { destruct (inner_tell !! p) eqn:Hout; [by eexists|].
      assert (p ∈ dom offsets ∖ dom inner_tell) as Hp.
      { apply elem_of_difference.
        split; [by apply elem_of_dom|by apply not_elem_of_dom]. }
      rewrite Hdiff in Hp. by apply elem_of_empty in Hp. }
    assert (forget (elements (dom offsets)) (previous_messages self) !! p
            = None) as Hnone.
    { rewrite lookup_forget, decide_True; [done|].
      by apply elem_of_elements, elem_of_dom. }
    split; [by eexists|]. split; [done|].
    unfold tell. simpl. by rewrite map_lookup_imap, Ho, Hnone.
  - intros p Hout. rewrite lookup_forget, decide_False; [done|].
    rewrite elem_of_elements, elem_of_dom, Hout. by intros [? ?].
Qed.

(** X18: after the revocation of some partitions, the next message of a
    revoked partition yields no tick and is recorded as its first
    message; the previous messages of the other partitions are kept. *)
Theorem revocation_forgets (valid_range : Z → Z → bool)
    (tick_time_shift : Tick → Z → Tick) {A : Type}
    (self : TickConsumer) (partitions : list Partition) :
  (∀ message : Message A, partition message ∈ partitions →
     ∃ self',
       poll valid_range tick_time_shift
            (revocation_callback self partitions) (Some message)
       = Return (None, self')
       ∧ previous_messages self' !! partition message
         = Some {| offset := message_offset message;
                   timestamp := message_timestamp message |})
  ∧ (∀ p, p ∉ partitions →
          previous_messages (revocation_callback self partitions) !! p
          = previous_messages self !! p).
Proof.
  split.
  - intros message Hin. unfold poll, revocation_callback. simpl.
    rewrite lookup_forget, decide_True by done.
    eexists. split; [reflexivity|]. simpl. apply lookup_insert_eq.
  - intros p Hout. unfold revocation_callback. simpl.
    by rewrite lookup_forget, decide_False.
Qed.

(** The scenario: the late message closes the tick opened by the first
    one; the close message in between is dropped. *)
Lemma poll_scenario :
  poll leq_range shift_timestamps after_first (Some close_message)
  = Return (None, after_first)
  ∧ poll leq_range shift_timestamps after_first (Some late_message)
    = Return (Some late_tick, after_late)
  ∧ poll_all leq_range shift_timestamps after_first
             [close_message; late_message]
    = Return ([(late_message, late_tick)], after_late).
Proof. repeat split; vm_compute; reflexivity. Qed.

Lemma poll_tick_sound_witness :
  ∃ previous,
    previous_messages after_first !! partition late_message = Some previous
    ∧ message_offset late_tick = offset previous
    ∧ (∀ m, min_interval after_first = Some m →
            m ≤ message_timestamp late_message - timestamp previous).
Proof.
  destruct (poll_tick_sound leq_range shift_timestamps after_first after_late
              late_message late_tick (proj1 (proj2 poll_scenario)))
    as (previous & Hprev & _ & Hoff & _ & _ & _ & _ & Hmin & _).
  exists previous. split; [exact Hprev|]. split; [exact Hoff|exact Hmin].
Defined.

Lemma two_messages_one_tick_witness :
  ∃ self1 self2 tick,
    poll leq_range shift_timestamps (TickConsumer_init None None)
         (Some (message_at topic0 0 100))
    = Return (None, self1)
    ∧ poll leq_range shift_timestamps self1 (Some late_message)
      = Return (Some tick, self2)
    ∧ message_offset tick = 0.
Proof.
  destruct (two_messages_one_tick leq_range shift_timestamps None
              (message_at topic0 0 100) late_message)
    as (self1 & self2 & tick & H1 & H2 & _ & Hoff & _);
    [reflexivity|reflexivity|reflexivity|].
  exists self1, self2, tick. split; [exact H1|]. split; [exact H2|exact Hoff].
Defined.

Lemma poll_dropped_keeps_previous_witness :
  after_first = after_first
  ∧ (leq_range 100 (message_timestamp close_message) = false
     ∨ ∃ m, min_interval after_first = Some m
            ∧ message_timestamp close_message - 100 < m).
Proof.
  apply (poll_dropped_keeps_previous leq_range shift_timestamps after_first
           after_first close_message {| offset := 0; timestamp := 100 |}).
  - reflexivity.
  - exact (proj1 poll_scenario).
Defined.

Lemma ticks_contiguous_witness :
  contiguous 0 (filter (λ t, partition t.1 = topic0)
                       [(late_message, late_tick)])
  ∧ ∃ previous', previous_messages after_late !! topic0 = Some previous'
                 ∧ offset previous'
                   = last_offset
                       (filter (λ t, partition t.1 = topic0)
                               [(late_message, late_tick)]) 0.
Proof.
  apply (ticks_contiguous leq_range shift_timestamps topic0
           [close_message; late_message] after_first after_late
           {| offset := 0; timestamp := 100 |} [(late_message, late_tick)]).
  - reflexivity.
  - exact (proj2 (proj2 poll_scenario)).
Defined.

Lemma tell_after_poll_witness :
  tell after_late {[ topic0 := 3; topic1 := 7 ]} !! topic0 = Some 2.
Proof.
  apply (proj1 (tell_after_poll leq_range shift_timestamps after_first
                  after_late late_message (Some late_tick)
                  {[ topic0 := 3; topic1 := 7 ]}
                  (proj1 (proj2 poll_scenario))
                  (or_intror (mk_is_Some _ _ eq_refl))) 3).
  reflexivity.
Defined.

Lemma seek_forgets_witness :
  previous_messages
    (with_previous_messages
       (forget (elements (dom ({[ topic0 := 1 ]} : gmap Partition Z)))
               (previous_messages after_late))
       after_late) !! topic0 = None.
Proof.
  assert (seek after_late {[ topic0 := 3; topic1 := 7 ]} {[ topic0 := 1 ]}
          = Return
              (with_previous_messages
                 (forget
                    (elements (dom ({[ topic0 := 1 ]} : gmap Partition Z)))
                    (previous_messages after_late))
                 after_late)) as Hseek by (vm_compute; reflexivity).
  destruct (seek_forgets after_late _ {[ topic0 := 3; topic1 := 7 ]}
              {[ topic0 := 1 ]} Hseek) as [Hsought _].
  destruct (Hsought topic0 (mk_is_Some _ _ eq_refl)) as (_ & Hnone & _).
  exact Hnone.
Defined.

End ConsumerFacts.

(** * Properties of the anonymizing formatter *)

Module AnonymizeFacts.
Import Anonymize.

(** X19: the content of a formatted query always starts with the
    [SELECT] node and ends with the [OFFSET] node, emitted even for a
    zero offset, followed by the [FROM] node; in between there is one
    string node for each optional clause the query carries, and nothing
    for the clauses it lacks. *)
Theorem format_query_content_shape {F : Type} (visit : F → FormattedNode)
    (query : AbstractQuery F) (formatter : ExpressionVisitor string) :
  ∃ middle,
    _format_query_content visit query formatter
    = _format_select query formatter
      :: middle
      ++ [StringNode ("OFFSET " +:+ str_of_int (get_offset query));
          PaddingNode "FROM" (visit (get_from_clause query))]
    ∧ length middle = clauses_present query
    ∧ Forall is_string_node middle.
Proof.
  unfold _format_query_content, clauses_present, _format_groupby,
    _format_orderby, _build_optional_string_node, _format_limitby,
    _format_limit, _format_offset.
  destruct (get_groupby query) as [|g gs], (get_orderby query) as [|o os],
    (get_arrayjoin query), (get_condition query), (get_having query),
    (get_limitby query), (get_limit query);
    cbn [omap list_omap id];
    (eexists; split;
     [ match goal with
       | |- ?x :: ?l = ?x :: ?m ++ [?a; ?b] =>
           instantiate (1 := take (length l - 2) l); reflexivity
       end
     | split; [reflexivity|repeat constructor; by eexists] ]).
Qed.

End AnonymizeFacts.
